(** * The mock repository of git-appraise (repository/mock_repo.go)

    A shallow embedding of [mockRepoForTest] and of the methods of the
    [Repo] interface whose behaviour is specified: ref resolution, the
    ancestry queries, note appending and the state hash. *)

From Stdlib Require Import ZArith Ascii String.
From stdpp Require Import base option list gmap strings fin_maps relations sorting.

Local Open Scope string_scope.
Local Open Scope list_scope.
Local Open Scope nat_scope.

(** ** Values of the Go program *)

(** The errors built with [fmt.Errorf]. The only message the modelled
    methods produce is ["The ref %q does not exist"]; the error value
    keeps the ref that is formatted into it. *)
Inductive error : Set :=
| RefDoesNotExist (ref : string).

#[global] Instance error_eq_dec : EqDecision error.
Proof. solve_decision. Defined.

(** The line feed and the double quote. *)
Definition LF : string := String (ascii_of_nat 10) EmptyString.
Definition dq : string := String (ascii_of_nat 34) EmptyString.

(** A call either returns or panics. *)
Inductive outcome (A : Type) : Type :=
| Returns (a : A)
| Panics (msg : string).
Arguments Returns {A} a.
Arguments Panics {A} msg.

Record mockCommit : Set := MockCommit {
  Message : string;
  Time : string;
  Parents : list string
}.

#[global] Instance mockCommit_eq_dec : EqDecision mockCommit.
Proof. solve_decision. Defined.

(** The zero value of [mockCommit], what [r.Commits[k]] yields for an
    absent key. *)
Definition zeroCommit : mockCommit := MockCommit "" "" [].

(** A value of type [map[string]string] is nil or a reference to a map
    object; the objects live in the heap and are shared by every copy of
    the reference. *)
Definition addr := positive.

Inductive mapref : Set :=
| NilMap
| MapAt (a : addr).

#[global] Instance mapref_eq_dec : EqDecision mapref.
Proof. solve_decision. Defined.

(** The heap holds the [map[string]string] objects that the notes table
    points to. No method writes to [Refs], to [Commits] or to the outer
    [Notes] table, so these are kept by value; reading a nil map and
    reading an empty map are the same in Go. *)
Abbreviation heap := (gmap addr (gmap string string)).

Record mockRepoForTest : Type := MockRepoForTest {
  Head : string;
  Refs : gmap string string;
  Commits : gmap string mockCommit;
  Notes : gmap string mapref
}.

(** Go's index expression [m[k]] on a map: the zero value when absent. *)
Definition index_str (m : gmap string string) (k : string) : string :=
  default "" (m !! k).

Definition index_commit (m : gmap string mockCommit) (k : string) : mockCommit :=
  default zeroCommit (m !! k).

Definition index_notes (m : gmap string mapref) (k : string) : mapref :=
  default NilMap (m !! k).

(** Reading through a map reference: a nil map reads as empty. *)
Definition deref (h : heap) (m : mapref) : gmap string string :=
  match m with
  | NilMap => ∅
  | MapAt a => default ∅ (h !! a)
  end.

(** ** Ref resolution *)

Definition resolveLocalRef (r : mockRepoForTest) (ref : string) : string * option error :=
  match Refs r !! ref with
  | Some commit => (commit, None)
  | None =>
    match Commits r !! ref with
    | Some _ => (ref, None)
    | None => ("", Some (RefDoesNotExist ref))
    end
  end.

Definition VerifyGitRef (r : mockRepoForTest) (ref : string) : option error :=
  snd (resolveLocalRef r ref).

Definition GetHeadRef (r : mockRepoForTest) : string * option error :=
  (Head r, None).

Definition GetCommitHash (r : mockRepoForTest) (ref : string) : string * option error :=
  match VerifyGitRef r ref with
  | Some err => ("", Some err)
  | None => (index_str (Refs r) ref, None)
  end.

(** [strings.Index]-style search: [split_at_first old s] is
    [Some (before, after)] when [s = before ++ old ++ after] with the
    leftmost possible [before]. *)
Fixpoint strip_prefix (p s : string) : option string :=
  match p, s with
  | EmptyString, _ => Some s
  | String a p', String b s' => if decide (a = b) then strip_prefix p' s' else None
  | String _ _, EmptyString => None
  end.

Fixpoint split_at_first (old s : string) : option (string * string) :=
  match strip_prefix old s with
  | Some after => Some ("", after)
  | None =>
    match s with
    | EmptyString => None
    | String c s' =>
      match split_at_first old s' with
      | Some (before, after) => Some (String c before, after)
      | None => None
      end
    end
  end.

(** [strings.Replace(s, old, new, 1)]: the first occurrence of [old]
    replaced by [new], [s] itself when there is none. *)
Definition strings_Replace1 (s old new : string) : string :=
  match split_at_first old s with
  | Some (before, after) => before +:+ new +:+ after
  | None => s
  end.

Definition ResolveRefCommit (r : mockRepoForTest) (ref : string) : string * option error :=
  match resolveLocalRef r ref with
  | (commit, None) => (commit, None)
  | (_, Some _) =>
    resolveLocalRef r (strings_Replace1 ref "refs/heads/" "refs/remotes/origin/")
  end.

Definition getCommit (r : mockRepoForTest) (ref : string) : mockCommit * option error :=
  let '(commit, err) := resolveLocalRef r ref in
  (index_commit (Commits r) commit, err).

(** ** Ancestry queries

    [ancestors] loops while its queue is not nil and [IsAncestor] calls
    itself on every parent: on a history with a cycle neither returns.
    Both take a bound [fuel] on the iterations (resp. the call depth) and
    yield [None] when it is exhausted. *)

(** The body of [for _, c := range queue] in [ancestors]. *)
Fixpoint ancestors_range (r : mockRepoForTest) (queue nextQueue acc : list string)
  : (list string * list string) + error :=
  match queue with
  | [] => inl (nextQueue, acc)
  | c :: queue' =>
    match getCommit r c with
    | (_, Some err) => inr err
    | (commit, None) =>
      let parents := Parents commit in
      ancestors_range r queue' (nextQueue ++ parents) (acc ++ parents)
    end
  end.

(** The loop [for queue != nil]. A slice built by [append] from nil is nil
    exactly when nothing was appended. *)
Fixpoint ancestors_loop (fuel : nat) (r : mockRepoForTest) (queue acc : list string)
  : option (list string * option error) :=
  match queue with
  | [] => Some (acc, None)
  | _ :: _ =>
    match fuel with
    | O => None
    | S fuel' =>
      match ancestors_range r queue [] acc with
      | inr err => Some ([], Some err)
      | inl (nextQueue, acc') => ancestors_loop fuel' r nextQueue acc'
      end
    end
  end.

Definition ancestors (fuel : nat) (r : mockRepoForTest) (commit : string)
  : option (list string * option error) :=
  ancestors_loop fuel r [commit] [].

(** [for _, x := range l { if t, e := test(x); e == nil && t { return x } }]:
    the first element on which [test] returns [(true, nil)]; [None] when a
    call of [test] made on the way does not return. *)
Fixpoint range_first (test : string → option (bool * option error)) (l : list string)
  : option (option string) :=
  match l with
  | [] => Some None
  | x :: l' =>
    match test x with
    | None => None
    | Some (true, None) => Some (Some x)
    | Some _ => range_first test l'
    end
  end.

Fixpoint IsAncestor (fuel : nat) (r : mockRepoForTest) (ancestor descendant : string)
  : option (bool * option error) :=
  match fuel with
  | O => None
  | S fuel' =>
    if decide (ancestor = descendant) then Some (true, None)
    else
      match getCommit r descendant with
      | (_, Some err) => Some (false, Some err)
      | (descendantCommit, None) =>
        match range_first (IsAncestor fuel' r ancestor) (Parents descendantCommit) with
        | None => None
        | Some (Some _) => Some (true, None)
        | Some None => Some (false, None)
        end
      end
  end.

Definition MergeBase (fuel : nat) (r : mockRepoForTest) (a b : string)
  : option (string * option error) :=
  match ancestors fuel r a with
  | None => None
  | Some (_, Some err) => Some ("", Some err)
  | Some (ancestors0, None) =>
    match range_first (λ ancestor, IsAncestor fuel r ancestor b) ancestors0 with
    | None => None
    | Some (Some ancestor) => Some (ancestor, None)
    | Some None => Some ("", None)
    end
  end.

(** ** Methods with side effects

    Every method has a value receiver: the body works on a copy of the
    struct. A body is a function from the receiver copy and the heap to
    an outcome, the final state of the copy and the heap; the call
    discards the copy, the caller keeps its own struct value and sees
    the heap. *)
Definition method_body (A : Type) : Type :=
  mockRepoForTest → heap → outcome A * mockRepoForTest * heap.

Definition call_by_value {A : Type} (body : method_body A) (r : mockRepoForTest) (h : heap)
  : outcome A * heap :=
  let '(res, _, h') := body r h in (res, h').

Definition SwitchToRef_body (ref : string) : method_body (option error) :=
  λ r h,
    let r := MockRepoForTest ref (Refs r) (Commits r) (Notes r) in
    (Returns None, r, h).

Definition SwitchToRef (r : mockRepoForTest) (ref : string) (h : heap)
  : outcome (option error) * heap :=
  call_by_value (SwitchToRef_body ref) r h.

(** The assignment [m[k] = v]: a write to a nil map panics. *)
Definition map_assign (h : heap) (m : mapref) (k v : string) : outcome unit * heap :=
  match m with
  | NilMap => (Panics "assignment to entry in nil map", h)
  | MapAt a => (Returns (), <[a := <[k := v]> (deref h m)]> h)
  end.

Definition AppendNote_body (ref revision note : string) : method_body (option error) :=
  λ r h,
    let existingNotes := index_str (deref h (index_notes (Notes r) ref)) revision in
    let newNotes := existingNotes +:+ LF +:+ note in
    match map_assign h (index_notes (Notes r) ref) revision newNotes with
    | (Panics msg, h') => (Panics msg, r, h')
    | (Returns _, h') => (Returns None, r, h')
    end.

Definition AppendNote (r : mockRepoForTest) (ref revision note : string) (h : heap)
  : outcome (option error) * heap :=
  call_by_value (AppendNote_body ref revision note) r h.

(** ** The test repository *)

Definition TestTargetRef := "refs/heads/master".
Definition TestReviewRef := "refs/heads/ojarjur/mychange".
Definition TestRequestsRef := "refs/notes/devtools/reviews".
Definition TestCommentsRef := "refs/notes/devtools/discuss".

Definition TestCommitA := "A".
Definition TestCommitB := "B".
Definition TestCommitC := "C".
Definition TestCommitD := "D".
Definition TestCommitE := "E".
Definition TestCommitF := "F".
Definition TestCommitG := "G".
Definition TestCommitH := "H".
Definition TestCommitI := "I".
Definition TestCommitJ := "J".

Definition TestRequestB : string :=
  String.concat dq
    ["{"; "timestamp"; ": "; "0000000001"; ", "; "reviewRef"; ": ";
     "refs/heads/ojarjur/mychange"; ", "; "targetRef"; ": "; "refs/heads/master"; ", ";
     "requester"; ": "; "ojarjur"; ", "; "reviewers"; ": ["; "ojarjur"; "], ";
     "description"; ": "; "B"; "}"].

Definition TestRequestD : string :=
  String.concat dq
    ["{"; "timestamp"; ": "; "0000000002"; ", "; "reviewRef"; ": ";
     "refs/heads/ojarjur/mychange"; ", "; "targetRef"; ": "; "refs/heads/master"; ", ";
     "requester"; ": "; "ojarjur"; ", "; "reviewers"; ": ["; "ojarjur"; "], ";
     "description"; ": "; "D"; "}"].

Definition TestRequestG : string :=
  String.concat dq
    ["{"; "timestamp"; ": "; "0000000004"; ", "; "reviewRef"; ": ";
     "refs/heads/ojarjur/mychange"; ", "; "targetRef"; ": "; "refs/heads/master"; ", ";
     "requester"; ": "; "ojarjur"; ", "; "reviewers"; ": ["; "ojarjur"; "], ";
     "description"; ": "; "G"; "}" +:+ LF +:+ LF +:+ "{"; "timestamp"; ": "; "0000000005";
     ", "; "reviewRef"; ": "; "refs/heads/ojarjur/mychange"; ", "; "targetRef"; ": ";
     "refs/heads/master"; ", "; "requester"; ": "; "ojarjur"; ", "; "reviewers"; ": [";
     "ojarjur"; "], "; "description"; ": "; "Updated description of G";
     "}" +:+ LF +:+ LF +:+ "{"; "timestamp"; ": "; "0000000005"; ", "; "reviewRef"; ": ";
     "refs/heads/ojarjur/mychange"; ", "; "targetRef"; ": "; "refs/heads/master"; ", ";
     "requester"; ": "; "ojarjur"; ", "; "reviewers"; ": ["; "ojarjur"; "], ";
     "description"; ": "; "Final description of G"; "}"].

Definition TestDiscussB : string :=
  String.concat dq
    ["{"; "timestamp"; ": "; "0000000001"; ", "; "author"; ": "; "ojarjur"; ", ";
     "location"; ": {"; "commit"; ": "; "B"; "}, "; "resolved"; ": true}"].

Definition TestDiscussD : string :=
  String.concat dq
    ["{"; "timestamp"; ": "; "0000000003"; ", "; "author"; ": "; "ojarjur"; ", ";
     "location"; ": {"; "commit"; ": "; "E"; "}, "; "resolved"; ": true}"].

(** [NewMockRepoForTest] allocates the two inner note tables and returns
    the struct that points to them. *)
Definition NewMockRepoForTest : mockRepoForTest * heap :=
  let commitA := MockCommit "First commit" "0" [] in
  let commitB := MockCommit "Second commit" "1" [TestCommitA] in
  let commitC := MockCommit "No, I'm the second commit" "1" [TestCommitA] in
  let commitD := MockCommit "Fourth commit" "2" [TestCommitB; TestCommitC] in
  let commitE := MockCommit "Fifth commit" "3" [TestCommitD] in
  let commitF := MockCommit "Sixth commit" "4" [TestCommitE] in
  let commitG := MockCommit "No, I'm the sixth commit" "4" [TestCommitE] in
  let commitH := MockCommit "Seventh commit" "5" [TestCommitG; TestCommitF] in
  let commitI := MockCommit "Eighth commit" "6" [TestCommitH] in
  let commitJ := MockCommit "No, I'm the eighth commit" "6" [TestCommitF] in
  let requests : gmap string string :=
    <[TestCommitB := TestRequestB]> (<[TestCommitD := TestRequestD]>
      (<[TestCommitG := TestRequestG]> ∅)) in
  let comments : gmap string string :=
    <[TestCommitB := TestDiscussB]> (<[TestCommitD := TestDiscussD]> ∅) in
  ({| Head := TestTargetRef;
      Refs := <[TestTargetRef := TestCommitJ]> (<[TestReviewRef := TestCommitI]> ∅);
      Commits :=
        <[TestCommitA := commitA]> (<[TestCommitB := commitB]>
        (<[TestCommitC := commitC]> (<[TestCommitD := commitD]>
        (<[TestCommitE := commitE]> (<[TestCommitF := commitF]>
        (<[TestCommitG := commitG]> (<[TestCommitH := commitH]>
        (<[TestCommitI := commitI]> (<[TestCommitJ := commitJ]> ∅)))))))));
      Notes := <[TestRequestsRef := MapAt 1%positive]> (<[TestCommentsRef := MapAt 2%positive]> ∅) |},
   <[1%positive := requests]> (<[2%positive := comments]> ∅)).

Definition testRepo : mockRepoForTest := fst NewMockRepoForTest.
Definition testHeap : heap := snd NewMockRepoForTest.

(** ** The history as a relation

    Both queries read a commit through [getCommit]; [step r c p] says
    that [c] resolves and lists [p] among its parents. *)

Definition resolves (r : mockRepoForTest) (c : string) : Prop :=
  snd (getCommit r c) = None.

Definition parents_of (r : mockRepoForTest) (c : string) : list string :=
  Parents (fst (getCommit r c)).

Definition step (r : mockRepoForTest) (c p : string) : Prop :=
  resolves r c ∧ p ∈ parents_of r c.

(** A well-formed store: every parent resolves and a rank decreases along
    the parent edges, so the history has no cycle. *)
Definition WellFormed (r : mockRepoForTest) : Prop :=
  ∃ rank : string → nat, ∀ c p, step r c p → resolves r p ∧ rank p < rank c.

(** The identifiers that can resolve, for checking a concrete store. *)
Definition known (r : mockRepoForTest) : gset string :=
  dom (Refs r) ∪ dom (Commits r).

Definition check_ranked (r : mockRepoForTest) (rank : string → nat) : Prop :=
  set_Forall (λ c, Forall (λ p, p ∈ known r ∧ rank p < rank c) (parents_of r c)) (known r).

#[global] Instance check_ranked_dec r rank : Decision (check_ranked r rank).
Proof. unfold check_ranked. apply _. Defined.

(** A rank for the test repository: the position of the resolved commit
    in a topological order of the documented history. *)
Definition testRank (c : string) : nat :=
  let name := fst (resolveLocalRef testRepo c) in
  default 0 (list_find (λ x, x = name) ["A"; "B"; "C"; "D"; "E"; "F"; "G"; "H"; "I"; "J"]
             ≫= λ ix, Some (fst ix)).

(** ** The state hash

    [GetRepoStateHash] hashes [json.Marshal(r)] with SHA-1 and prints the
    digest in hexadecimal. The two library functions are modelled here as
    far as the struct needs them. *)

(** *** [encoding/json] *)

Definition backslash : string := String (ascii_of_nat 92) EmptyString.

Definition hexdigit (n : N) : ascii :=
  match String.get (N.to_nat n) "0123456789abcdef" with
  | Some c => c
  | None => "0"%char
  end.

(** [htmlSafeSet]: the ASCII characters that are copied as they are;
    the others are the control characters, the double quote, the
    backslash and [&], [<], [>]. *)
Definition htmlSafe (b : N) : bool :=
  (32 <=? b)%N && (b <? 128)%N &&
  negb ((b =? 34) || (b =? 38) || (b =? 60) || (b =? 62) || (b =? 92))%N.

(** The [switch] on an ASCII byte that is not copied. Backspace and
    form feed have their short form since Go 1.22; earlier releases wrote
    them with [u00]. *)
Definition escape_byte (c : ascii) : string :=
  let b := N_of_ascii c in
  if htmlSafe b then String c EmptyString
  else if ((b =? 92) || (b =? 34))%N then backslash +:+ String c EmptyString
  else if (b =? 8)%N then backslash +:+ "b"
  else if (b =? 12)%N then backslash +:+ "f"
  else if (b =? 10)%N then backslash +:+ "n"
  else if (b =? 13)%N then backslash +:+ "r"
  else if (b =? 9)%N then backslash +:+ "t"
  else backslash +:+ "u00" +:+
       String (hexdigit (b / 16)) (String (hexdigit (b mod 16)) EmptyString).

(** The first byte of a UTF-8 sequence: its length and the range accepted
    for the second byte ([utf8.first] and [utf8.acceptRanges]). *)
Definition utf8_first (b : N) : option (nat * N * N) :=
  if (b <? 0xC2)%N then None
  else if (b <=? 0xDF)%N then Some (2%nat, 0x80%N, 0xBF%N)
  else if (b =? 0xE0)%N then Some (3%nat, 0xA0%N, 0xBF%N)
  else if (b <=? 0xEC)%N then Some (3%nat, 0x80%N, 0xBF%N)
  else if (b =? 0xED)%N then Some (3%nat, 0x80%N, 0x9F%N)
  else if (b <=? 0xEF)%N then Some (3%nat, 0x80%N, 0xBF%N)
  else if (b =? 0xF0)%N then Some (4%nat, 0x90%N, 0xBF%N)
  else if (b <=? 0xF3)%N then Some (4%nat, 0x80%N, 0xBF%N)
  else if (b =? 0xF4)%N then Some (4%nat, 0x80%N, 0x8F%N)
  else None.

Definition in_range (lo hi : N) (c : ascii) : bool :=
  (lo <=? N_of_ascii c)%N && (N_of_ascii c <=? hi)%N.

(** The three bytes of U+FFFD in UTF-8. *)
Definition replacement : string :=
  String (ascii_of_nat 239) (String (ascii_of_nat 191)
    (String (ascii_of_nat 189) EmptyString)).

(** The text between the quotes of an encoded string: ASCII is escaped
    by [escape_byte], a byte that starts no well-formed UTF-8 sequence is
    replaced by U+FFFD, U+2028 and U+2029 are escaped, and every other
    sequence is copied. Current releases write the replacement character
    as its three bytes; earlier ones wrote it as an escape of six
    characters. *)
Fixpoint escapeString (s : string) : string :=
  match s with
  | EmptyString => EmptyString
  | String c0 s1 =>
    let b0 := N_of_ascii c0 in
    if (b0 <? 128)%N then escape_byte c0 +:+ escapeString s1
    else
      let invalid := replacement +:+ escapeString s1 in
      match utf8_first b0, s1 with
      | None, _ | _, EmptyString => invalid
      | Some (size, lo, hi), String c1 s2 =>
        if negb (in_range lo hi c1) then invalid
        else if decide (size = 2%nat) then String c0 (String c1 (escapeString s2))
        else
          match s2 with
          | EmptyString => invalid
          | String c2 s3 =>
            if negb (in_range 0x80 0xBF c2) then invalid
            else if decide (size = 3%nat) then
              if ((b0 =? 0xE2) && (N_of_ascii c1 =? 0x80) &&
                  ((N_of_ascii c2 =? 0xA8) || (N_of_ascii c2 =? 0xA9)))%N
              then backslash +:+ "u202" +:+
                   String (hexdigit (N.land (N_of_ascii c2) 0xF)) (escapeString s3)
              else String c0 (String c1 (String c2 (escapeString s3)))
            else
              match s3 with
              | EmptyString => invalid
              | String c3 s4 =>
                if negb (in_range 0x80 0xBF c3) then invalid
                else String c0 (String c1 (String c2 (String c3 (escapeString s4))))
              end
          end
      end
  end.

Definition encodeString (s : string) : string := dq +:+ escapeString s +:+ dq.

(** The order in which map keys compare: [strings.Compare], byte-wise. *)
Definition string_le (s1 s2 : string) : Prop := String.leb s1 s2 = true.

#[global] Instance string_le_dec : RelDecision string_le.
Proof. intros s1 s2. unfold string_le. apply _. Defined.

(** The order in which the runtime hands out the keys of a map is not
    specified: it is any enumeration of the key set. *)
Record range_order : Type := RangeOrder {
  MapKeys : gset string → list string;
  MapKeys_perm : ∀ X, MapKeys X ≡ₚ elements X
}.

Definition field (name value : string) : string :=
  encodeString name +:+ ":" +:+ value.

Definition object (fields : list string) : string :=
  "{" +:+ String.concat "," fields +:+ "}".

(** A non-nil map: the keys are collected, sorted, and written with
    their values. *)
Definition encodeMap {V : Type} (o : range_order) (enc : V → string) (m : gmap string V)
  : string :=
  let keys := merge_sort string_le (MapKeys o (dom m)) in
  object ((λ k, field k (from_option enc EmptyString (m !! k))) <$> keys).

Definition encodeStrings (l : list string) : string :=
  "[" +:+ String.concat "," (encodeString <$> l) +:+ "]".

(** [omitempty]: the field is left out when the string, slice or map has
    length zero. *)
Definition encodeCommit (c : mockCommit) : string :=
  object
    ((if decide (Message c = EmptyString) then []
      else [field "message" (encodeString (Message c))]) ++
     (if decide (Time c = EmptyString) then []
      else [field "time" (encodeString (Time c))]) ++
     (if decide (Parents c = []) then []
      else [field "parents" (encodeStrings (Parents c))])).

(** An inner note table: [null] when the map is nil. *)
Definition encodeTable (o : range_order) (h : heap) (m : mapref) : string :=
  match m with
  | NilMap => "null"
  | MapAt _ => encodeMap o encodeString (deref h m)
  end.

Definition encodeRepo (o : range_order) (h : heap) (r : mockRepoForTest) : string :=
  object
    ([field "Head" (encodeString (Head r))] ++
     (if decide (Refs r = ∅) then []
      else [field "refs" (encodeMap o encodeString (Refs r))]) ++
     (if decide (Commits r = ∅) then []
      else [field "commits" (encodeMap o encodeCommit (Commits r))]) ++
     (if decide (Notes r = ∅) then []
      else [field "notes" (encodeMap o (encodeTable o h) (Notes r))])).

(** [json.Marshal(r)]: no value of this struct makes it fail. *)
Definition json_Marshal (o : range_order) (h : heap) (r : mockRepoForTest)
  : string * option error :=
  (encodeRepo o h r, None).

(** *** [crypto/sha1] *)

Local Open Scope Z_scope.

Definition mask32 : Z := 0xFFFFFFFF.

Definition add32 (x y : Z) : Z := Z.land (x + y) mask32.

Definition rotl32 (x n : Z) : Z :=
  Z.land (Z.lor (Z.shiftl x n) (Z.shiftr x (32 - n))) mask32.

Definition not32 (x : Z) : Z := Z.lxor x mask32.

Definition bytes_of_string (s : string) : list Z :=
  (λ c, Z.of_N (N_of_ascii c)) <$> list_ascii_of_string s.

Definition big_endian (width : nat) (x : Z) : list Z :=
  (λ i, Z.land (Z.shiftr x (8 * Z.of_nat i)) 0xFF) <$> reverse (seq 0 width).

(** The message, the byte [0x80], zeros up to 56 modulo 64, and the bit
    length on eight bytes. *)
Definition sha1_pad (msg : list Z) : list Z :=
  let len := Z.of_nat (length msg) in
  msg ++ [0x80] ++ replicate (Z.to_nat ((55 - len) mod 64)) 0 ++ big_endian 8 (8 * len).

Fixpoint sha1_words (bs : list Z) : list Z :=
  match bs with
  | b0 :: b1 :: b2 :: b3 :: rest =>
    Z.lor (Z.lor (Z.lor (Z.shiftl b0 24) (Z.shiftl b1 16)) (Z.shiftl b2 8)) b3
      :: sha1_words rest
  | _ => []
  end.

Fixpoint sha1_blocks (n : nat) (ws : list Z) : list (list Z) :=
  match n with
  | O => []
  | S n' => take 16 ws :: sha1_blocks n' (drop 16 ws)
  end.

Fixpoint sha1_schedule (n : nat) (w : list Z) : list Z :=
  match n with
  | O => w
  | S n' =>
    let i := length w in
    let x := Z.lxor (Z.lxor (Z.lxor (nth (i - 3) w 0) (nth (i - 8) w 0))
                            (nth (i - 14) w 0)) (nth (i - 16) w 0) in
    sha1_schedule n' (w ++ [rotl32 x 1])
  end.

Definition sha1_state : Type := Z * Z * Z * Z * Z.

Definition sha1_round (st : sha1_state) (iw : nat * Z) : sha1_state :=
  let '(a, b, c, d, e) := st in
  let '(i, w) := iw in
  let '(f, k) :=
    if (i <? 20)%nat then (Z.lor (Z.land b c) (Z.land (not32 b) d), 0x5A827999)
    else if (i <? 40)%nat then (Z.lxor (Z.lxor b c) d, 0x6ED9EBA1)
    else if (i <? 60)%nat then
      (Z.lor (Z.lor (Z.land b c) (Z.land b d)) (Z.land c d), 0x8F1BBCDC)
    else (Z.lxor (Z.lxor b c) d, 0xCA62C1D6) in
  (add32 (add32 (add32 (add32 (rotl32 a 5) f) e) w) k, a, rotl32 b 30, c, d).

Definition sha1_block (st : sha1_state) (block : list Z) : sha1_state :=
  let w := sha1_schedule 64 block in
  let '(a, b, c, d, e) := fold_left sha1_round (imap (λ i x, (i, x)) w) st in
  let '(h0, h1, h2, h3, h4) := st in
  (add32 h0 a, add32 h1 b, add32 h2 c, add32 h3 d, add32 h4 e).

Definition sha1_init : sha1_state :=
  (0x67452301, 0xEFCDAB89, 0x98BADCFE, 0x10325476, 0xC3D2E1F0).

(** [sha1.Sum(data)]: the twenty bytes of the digest. *)
Definition sha1_Sum (data : list Z) : list Z :=
  let ws := sha1_words (sha1_pad data) in
  let '(h0, h1, h2, h3, h4) :=
    fold_left sha1_block (sha1_blocks (length ws / 16) ws) sha1_init in
  big_endian 4 h0 ++ big_endian 4 h1 ++ big_endian 4 h2 ++ big_endian 4 h3
    ++ big_endian 4 h4.

Local Close Scope Z_scope.

(** [fmt.Sprintf("%x", digest)]: two lower-case digits per byte. *)
Definition hex_of_bytes (bs : list Z) : string :=
  string_of_list_ascii
    (bs ≫= λ b, [hexdigit (Z.to_N (b / 16)); hexdigit (Z.to_N (b mod 16))]).

Definition GetRepoStateHash (o : range_order) (h : heap) (r : mockRepoForTest)
  : string * option error :=
  match json_Marshal o h r with
  | (_, Some err) => (EmptyString, Some err)
  | (repoJSON, None) => (hex_of_bytes (sha1_Sum (bytes_of_string repoJSON)), None)
  end.

(** The enumeration that [elements] gives, and its reverse. *)
Definition ascending_order : range_order :=
  RangeOrder elements (λ X, reflexivity (elements X)).

Definition descending_order : range_order :=
  RangeOrder (λ X, reverse (elements X)) (λ X, reverse_Permutation (elements X)).

(** What the notes of a repository hold, whatever the addresses. *)
Definition notes_content (h : heap) (r : mockRepoForTest)
  : gmap string (option (gmap string string)) :=
  (λ m, match m with NilMap => None | MapAt _ => Some (deref h m) end) <$> Notes r.

(** The test repository with its two note tables at other addresses. *)
Definition relocatedRepo : mockRepoForTest :=
  MockRepoForTest (Head testRepo) (Refs testRepo) (Commits testRepo)
    (<[TestRequestsRef := MapAt 7%positive]> (<[TestCommentsRef := MapAt 5%positive]> ∅)).

Definition relocatedHeap : heap :=
  <[7%positive := deref testHeap (MapAt 1%positive)]>
    (<[5%positive := deref testHeap (MapAt 2%positive)]> ∅).

(** The test repository after a checkout of the review branch. *)
Definition reviewRepo : mockRepoForTest :=
  MockRepoForTest TestReviewRef (Refs testRepo) (Commits testRepo) (Notes testRepo).

(** ** The other accessors *)

(** The error of [VerifyCommit], ["The given hash %q is not a known
    commit"], with the hash that is formatted into it. *)
Inductive commit_error : Set :=
| NotAKnownCommit (hash : string).

Definition VerifyCommit (r : mockRepoForTest) (hash : string) : option commit_error :=
  match Commits r !! hash with
  | None => Some (NotAKnownCommit hash)
  | Some _ => None
  end.

Definition GetCommitMessage (r : mockRepoForTest) (ref : string) : string * option error :=
  match getCommit r ref with
  | (_, Some err) => (EmptyString, Some err)
  | (commit, None) => (Message commit, None)
  end.

Definition GetCommitTime (r : mockRepoForTest) (ref : string) : string * option error :=
  match getCommit r ref with
  | (_, Some err) => (EmptyString, Some err)
  | (commit, None) => (Time commit, None)
  end.

(** [GetLastParent] looks at the parents before it looks at the error. *)
Definition GetLastParent (r : mockRepoForTest) (ref : string) : string * option error :=
  let '(commit, err) := getCommit r ref in
  if decide (0 < length (Parents commit))
  then (default EmptyString (Parents commit !! (length (Parents commit) - 1)), err)
  else (EmptyString, err).

(** ** Reading notes *)

(** The loop of [strings.Split(s, sep)] for a separator that is not
    empty: cut at the leftmost occurrence as long as there is one. A
    string holds fewer occurrences than bytes, which bounds the loop. *)
Fixpoint genSplit (n : nat) (s sep : string) : list string :=
  match n with
  | O => [s]
  | S n' =>
    match split_at_first sep s with
    | None => [s]
    | Some (before, after) => before :: genSplit n' after sep
    end
  end.

Definition strings_Split (s sep : string) : list string :=
  genSplit (String.length s) s sep.

Definition GetNotes (h : heap) (r : mockRepoForTest) (notesRef revision : string)
  : list string :=
  let notesText := index_str (deref h (index_notes (Notes r) notesRef)) revision in
  strings_Split notesText LF.

(** [for revision := range r.Notes[notesRef]]: the revisions come in the
    order of the runtime, the known commits among them are kept. *)
Definition ListNotedRevisions (o : range_order) (h : heap) (r : mockRepoForTest)
    (notesRef : string) : list string :=
  filter (λ revision, is_Some (Commits r !! revision))
         (MapKeys o (dom (deref h (index_notes (Notes r) notesRef)))).

(** ** Generations

    The queue of [ancestors] after [k] rounds of its outer loop. *)
Fixpoint generation (r : mockRepoForTest) (k : nat) (queue : list string) : list string :=
  match k with
  | O => queue
  | S k' => generation r k' (queue ≫= parents_of r)
  end.

(** A string that holds no occurrence of [sep]. *)
Definition free_of (sep s : string) : Prop :=
  ∀ before after, s ≠ before +:+ sep +:+ after.

(** * Properties *)

Section ancestry.
Context (r : mockRepoForTest).

Lemma resolves_known c : resolves r c ↔ c ∈ known r.
Proof.
  unfold resolves, getCommit, resolveLocalRef, known.
  rewrite elem_of_union, !elem_of_dom.
  destruct (Refs r !! c) eqn:E1; simpl.
  { split; [intros _; left; eauto | done]. }
  destruct (Commits r !! c) eqn:E2; simpl.
  { split; [intros _; right; eauto | done]. }
  split; [done | intros [[? ?]|[? ?]]; done].
Qed.

Lemma getCommit_resolves c :
  resolves r c → getCommit r c = (fst (getCommit r c), None).
Proof. unfold resolves. destruct (getCommit r c) as [? ?]; simpl. by intros ->. Qed.

(** *** The inner loop of [ancestors] *)

Lemma ancestors_range_inl queue nextQueue acc :
  Forall (resolves r) queue →
  ancestors_range r queue nextQueue acc =
    inl (nextQueue ++ (queue ≫= parents_of r), acc ++ (queue ≫= parents_of r)).
Proof.
  intros Hq. revert nextQueue acc.
  induction Hq as [|c queue Hc _ IH]; intros nextQueue acc; simpl.
  { by rewrite !app_nil_r. }
  rewrite (getCommit_resolves c Hc). rewrite IH.
  unfold parents_of at 3 6. by rewrite <- !app_assoc.
Qed.

Lemma ancestors_range_inv queue nextQueue acc nq acc' :
  ancestors_range r queue nextQueue acc = inl (nq, acc') →
  Forall (resolves r) queue.
Proof.
  revert nextQueue acc. induction queue as [|c queue IH]; intros nextQueue acc; simpl.
  { constructor. }
  destruct (getCommit r c) as [commit [err|]] eqn:E; [done|].
  intros H. constructor; [|by eapply IH].
  unfold resolves. by rewrite E.
Qed.

Lemma ancestors_range_spec queue nextQueue acc nq acc' :
  ancestors_range r queue nextQueue acc = inl (nq, acc') →
  Forall (resolves r) queue ∧
  nq = nextQueue ++ (queue ≫= parents_of r) ∧
  acc' = acc ++ (queue ≫= parents_of r).
Proof.
  intros H. pose proof (ancestors_range_inv _ _ _ _ _ H) as Hq.
  rewrite (ancestors_range_inl _ _ _ Hq) in H. by simplify_eq.
Qed.

Lemma elem_of_next_queue queue x :
  Forall (resolves r) queue →
  x ∈ queue ≫= parents_of r ↔ ∃ c, c ∈ queue ∧ step r c x.
Proof.
  intros Hq. rewrite list_elem_of_bind. rewrite Forall_forall in Hq.
  unfold step. split.
  - intros (c & Hx & Hc). eauto.
  - intros (c & Hc & _ & Hx). eauto.
Qed.

(** *** The breadth-first loop *)

Lemma ancestors_loop_S fuel c queue acc res :
  ancestors_loop (S fuel) r (c :: queue) acc = Some (res, None) →
  Forall (resolves r) (c :: queue) ∧
  ancestors_loop fuel r ((c :: queue) ≫= parents_of r)
    (acc ++ ((c :: queue) ≫= parents_of r)) = Some (res, None).
Proof.
  cbn [ancestors_loop].
  destruct (ancestors_range r (c :: queue) [] acc) as [[nq acc']|err] eqn:E; [|done].
  apply ancestors_range_spec in E as (Hq & -> & ->). done.
Qed.

(** The enumeration holds what was accumulated and whatever is reached
    from the queue in at least one step. *)
Lemma ancestors_loop_spec fuel queue acc res :
  ancestors_loop fuel r queue acc = Some (res, None) →
  ∀ x, x ∈ res ↔ x ∈ acc ∨ ∃ c, c ∈ queue ∧ tc (step r) c x.
Proof.
  revert queue acc. induction fuel as [|fuel IH]; intros queue acc H x.
  - destruct queue; [|done]. simpl in H. simplify_eq.
    split; [by left|]. intros [?|(c & Hc & _)]; [done|]. by apply elem_of_nil in Hc.
  - destruct queue as [|c0 queue].
    { simpl in H. simplify_eq.
      split; [by left|]. intros [?|(c & Hc & _)]; [done|]. by apply elem_of_nil in Hc. }
    apply ancestors_loop_S in H as [Hq H].
    rewrite (IH _ _ H x), elem_of_app, (elem_of_next_queue _ _ Hq).
    split.
    + intros [[?|(c & Hc & Hs)]|(p & Hp & Hpx)]; [by left| |].
      * right. exists c. split; [done|]. by apply tc_once.
      * apply (elem_of_next_queue _ _ Hq) in Hp as (c & Hc & Hs).
        right. exists c. split; [done|]. by eapply tc_l.
    + intros [?|(c & Hc & Hcx)]; [by left; left|].
      inversion Hcx as [? ? Hs|? p ? Hs Hpx]; subst.
      * left. right. eauto.
      * right. exists p. split; [|done].
        apply (elem_of_next_queue _ _ Hq). eauto.
Qed.

Lemma ancestors_loop_prefix fuel queue acc res :
  ancestors_loop fuel r queue acc = Some (res, None) → acc `prefix_of` res.
Proof.
  revert queue acc. induction fuel as [|fuel IH]; intros queue acc H.
  - destruct queue; [|done]. simpl in H. by simplify_eq.
  - destruct queue as [|c0 queue]; [simpl in H; by simplify_eq|].
    apply ancestors_loop_S in H as [_ H]. apply IH in H.
    etrans; [|done]. by apply prefix_app_r.
Qed.

Lemma ancestors_loop_mono fuel fuel' queue acc res :
  ancestors_loop fuel r queue acc = Some res → fuel ≤ fuel' →
  ancestors_loop fuel' r queue acc = Some res.
Proof.
  revert fuel' queue acc. induction fuel as [|fuel IH]; intros fuel' queue acc H Hle.
  - destruct queue; [|done]. by destruct fuel'.
  - destruct fuel' as [|fuel']; [lia|].
    destruct queue as [|c0 queue]; [done|].
    cbn [ancestors_loop] in *.
    destruct (ancestors_range r (c0 :: queue) [] acc) as [[nq acc']|err]; [|done].
    apply IH; [done | lia].
Qed.

Lemma ancestors_spec fuel b res :
  ancestors fuel r b = Some (res, None) → ∀ x, x ∈ res ↔ tc (step r) b x.
Proof.
  intros H x. rewrite (ancestors_loop_spec _ _ _ _ H x).
  split.
  - intros [H'|(c & Hc & Hcx)]; [by apply elem_of_nil in H'|].
    apply list_elem_of_singleton in Hc. by subst.
  - intros Hbx. right. exists b. split; [by apply list_elem_of_singleton | done].
Qed.

Lemma ancestors_starts_with_parents fuel b res :
  ancestors fuel r b = Some (res, None) →
  resolves r b ∧ parents_of r b `prefix_of` res.
Proof.
  unfold ancestors. destruct fuel as [|fuel]; [done|].
  intros H. apply ancestors_loop_S in H as [Hq H].
  split; [by apply Forall_cons_1 in Hq as [? _]|].
  apply ancestors_loop_prefix in H. simpl in H.
  by rewrite !app_nil_r in H.
Qed.
End ancestry.

Section queries.
Context (r : mockRepoForTest).

(** *** The search loop shared by [IsAncestor] and [MergeBase] *)

Lemma range_first_Some test l x :
  range_first test l = Some (Some x) → x ∈ l ∧ test x = Some (true, None).
Proof.
  induction l as [|y l IH]; simpl; [done|].
  destruct (test y) as [[[] [err|]]|] eqn:E; try done.
  - intros H. apply IH in H as [? ?]. split; [by right | done].
  - intros [= ->]. split; [by left | done].
  - intros H. apply IH in H as [? ?]. split; [by right | done].
  - intros H. apply IH in H as [? ?]. split; [by right | done].
Qed.


Lemma range_first_decides (P : string → Prop) test l :
  (∀ x, x ∈ l → ∃ b : bool, test x = Some (b, None) ∧ (b = true ↔ P x)) →
  (∃ x, range_first test l = Some (Some x) ∧ x ∈ l ∧ P x) ∨
  (range_first test l = Some None ∧ ∀ x, x ∈ l → ¬ P x).
Proof.
  induction l as [|y l IH]; intros Htest.
  { right. split; [done|]. intros x Hx. by apply elem_of_nil in Hx. }
  destruct (Htest y) as ([] & Hy & HP); [by left|..].
  - left. exists y. simpl. rewrite Hy. split_and!; [done | by left | by apply HP].
  - destruct IH as [(x & Hx & Hin & HPx)|[Hnone Hall]].
    { intros x Hx. apply Htest. by right. }
    + left. exists x. simpl. rewrite Hy. split_and!; [done | by right | done].
    + right. simpl. rewrite Hy. split; [done|].
      intros x [->|Hx]%elem_of_cons; [|by apply Hall].
      intros HPy. by apply HP in HPy.
Qed.

Lemma range_first_mono (test test' : string → option (bool * option error)) l res :
  (∀ x y, x ∈ l → test x = Some y → test' x = Some y) →
  range_first test l = Some res → range_first test' l = Some res.
Proof.
  induction l as [|y l IH]; intros Hmono; simpl; [done|].
  destruct (test y) as [res_y|] eqn:E; [|done].
  rewrite (Hmono y res_y); [|by left|done].
  destruct res_y as [[] [err|]]; try done.
  all: apply IH; intros x z Hx; apply Hmono; by right.
Qed.

(** *** [IsAncestor] *)

Lemma IsAncestor_refl fuel x : IsAncestor (S fuel) r x x = Some (true, None).
Proof. simpl. by rewrite decide_True. Qed.

Lemma IsAncestor_mono fuel fuel' a c res :
  IsAncestor fuel r a c = Some res → fuel ≤ fuel' →
  IsAncestor fuel' r a c = Some res.
Proof.
  revert fuel' c res. induction fuel as [|fuel IH]; intros fuel' c res H Hle; [done|].
  destruct fuel' as [|fuel']; [lia|].
  cbn [IsAncestor] in *. case_decide; [done|].
  destruct (getCommit r c) as [commit [err|]]; [done|].
  destruct (range_first (IsAncestor fuel r a) (Parents commit)) as [found|] eqn:E; [|done].
  erewrite range_first_mono; [done| |done].
  intros x y _ Hx. apply IH; [done | lia].
Qed.

(** When the breadth-first loop started from [queue] comes to an end,
    the depth-first search from any commit of [queue] returns within the
    same bound, without error, and decides reachability. *)
Lemma IsAncestor_of_loop fuel queue acc res :
  ancestors_loop fuel r queue acc = Some (res, None) →
  ∀ c a, c ∈ queue →
    ∃ b : bool, IsAncestor fuel r a c = Some (b, None) ∧ (b = true ↔ rtc (step r) c a).
Proof.
  revert queue acc. induction fuel as [|fuel IH]; intros queue acc H c a Hc.
  { destruct queue; [by apply elem_of_nil in Hc | done]. }
  destruct queue as [|c0 queue]; [by apply elem_of_nil in Hc|].
  apply ancestors_loop_S in H as [Hq H].
  cbn [IsAncestor]. case_decide as Hac.
  { exists true. subst. split; [done|]. split; [intros _; apply rtc_refl | done]. }
  assert (resolves r c) as Hres by (by eapply Forall_forall in Hq).
  rewrite (getCommit_resolves r c Hres).
  destruct (range_first_decides (λ p, rtc (step r) p a) (IsAncestor fuel r a)
              (Parents (getCommit r c).1)) as [(p & -> & Hp & Hpa)|[-> Hnone]].
  - intros p Hp. eapply IH; [done|].
    apply elem_of_next_queue; [done|]. exists c. by split.
  - exists true. split; [done|]. split; [intros _|done].
    eapply rtc_l; [|done]. by split.
  - exists false. split; [done|]. split; [done|].
    intros [?|(p & [_ Hp] & Hpa)]%rtc_inv; [by subst|].
    by apply Hnone in Hpa.
Qed.

Lemma IsAncestor_of_ancestors fuel a b l :
  ancestors fuel r b = Some (l, None) →
  IsAncestor fuel r a b = Some (bool_decide (a = b ∨ a ∈ l), None).
Proof.
  intros H.
  destruct (IsAncestor_of_loop _ _ _ _ H b a) as (res & -> & Hres).
  { by left. }
  f_equal. f_equal.
  assert (rtc (step r) b a ↔ a = b ∨ a ∈ l) as Hiff.
  { rewrite rtc_tc, (ancestors_spec _ _ _ _ H a).
    split; (intros [?|?]; [by left | by right]). }
  destruct res.
  - symmetry. apply bool_decide_eq_true. apply Hiff. by apply Hres.
  - symmetry. apply bool_decide_eq_false. intros Hal.
    apply Hiff, Hres in Hal. done.
Qed.

(** *** Termination on a well-formed store *)

Lemma ancestors_loop_terminates (rank : string → nat) fuel queue acc :
  (∀ c p, step r c p → resolves r p ∧ rank p < rank c) →
  Forall (λ c, resolves r c ∧ rank c < fuel) queue →
  ∃ res, ancestors_loop fuel r queue acc = Some (res, None).
Proof.
  intros Hwf. revert queue acc.
  induction fuel as [|fuel IH]; intros queue acc Hq.
  { destruct queue as [|c queue]; [by eexists|].
    apply Forall_cons_1 in Hq as [[_ ?] _]. lia. }
  destruct queue as [|c0 queue]; [by eexists|].
  assert (Forall (resolves r) (c0 :: queue)) as Hres.
  { eapply Forall_impl; [done|]. by intros ? [? _]. }
  cbn [ancestors_loop]. rewrite (ancestors_range_inl r _ _ _ Hres).
  apply IH. apply Forall_forall. intros p Hp.
  apply (elem_of_next_queue r _ _ Hres) in Hp as (c & Hc & Hs).
  rewrite Forall_forall in Hq. destruct (Hq c Hc) as [_ Hlt].
  destruct (Hwf c p Hs) as [? ?]. split; [done | lia].
Qed.

Lemma ancestors_terminates b :
  WellFormed r → resolves r b →
  ∃ fuel0 l, ∀ fuel, fuel0 ≤ fuel → ancestors fuel r b = Some (l, None).
Proof.
  intros [rank Hwf] Hb.
  destruct (ancestors_loop_terminates rank (S (rank b)) [b] [] Hwf) as [l Hl].
  { constructor; [|constructor]. split; [done | lia]. }
  exists (S (rank b)), l. intros fuel Hle.
  by eapply ancestors_loop_mono.
Qed.

Lemma check_ranked_WellFormed rank : check_ranked r rank → WellFormed r.
Proof.
  intros Hchk. exists rank. intros c p [Hc Hp].
  apply resolves_known in Hc. apply Hchk in Hc.
  rewrite Forall_forall in Hc. destruct (Hc p Hp) as [Hk ?].
  split; [by apply resolves_known | done].
Qed.

(** *** [MergeBase] *)

Lemma MergeBase_same_of_ancestors fuel a l :
  ancestors fuel r a = Some (l, None) →
  MergeBase fuel r a a = Some (hd "" (parents_of r a), None).
Proof.
  intros H. unfold MergeBase. rewrite H.
  destruct (ancestors_starts_with_parents r _ _ _ H) as [_ [rest ->]].
  destruct (parents_of r a) as [|p ps] eqn:Hps; simpl.
  - (* no parent: the queue is exhausted at once *)
    destruct fuel as [|fuel]; [done|].
    unfold ancestors in H. apply ancestors_loop_S in H as [_ H].
    simpl in H. rewrite !app_nil_r, Hps in H. simpl in H.
    assert (rest = []) as -> by (destruct fuel; simpl in H; by simplify_eq).
    done.
  - rewrite (IsAncestor_of_ancestors _ p a _ H).
    rewrite bool_decide_eq_true_2; [done|]. right. by left.
Qed.
End queries.

Lemma testRepo_WellFormed : WellFormed testRepo.
Proof.
  apply (check_ranked_WellFormed _ testRank).
  apply (bool_decide_unpack (check_ranked testRepo testRank)).
  vm_compute. exact I.
Qed.

(** ** Ancestry claims *)

(** C8. For every string [x], known to the repository or not,
    [IsAncestor(x, x)] returns [(true, nil)]: the equality test comes
    before any commit lookup, so one level of call depth is enough and no
    not-found error can arise. *)
Theorem IsAncestor_same_argument (r : mockRepoForTest) (x : string) (fuel : nat) :
  IsAncestor (S fuel) r x x = Some (true, None).
Proof. apply IsAncestor_refl. Qed.

(** C2, as the code has it. On the pre-populated repository
    [IsAncestor("A", "J")] returns true and [IsAncestor("C", "G")] returns
    true as well, both without error: G descends from E, E from D, and D
    merges C. Six levels of call depth suffice, and more do not change the
    results. *)
Theorem IsAncestor_test_history (fuel : nat) :
  IsAncestor (6 + fuel) testRepo "A" "J" = Some (true, None) ∧
  IsAncestor (6 + fuel) testRepo "C" "G" = Some (true, None).
Proof.
  split; apply (IsAncestor_mono _ 6); [by vm_compute | lia | by vm_compute | lia].
Qed.

(** C2 fails as stated: [IsAncestor("C", "G")] is not false. *)
Lemma IsAncestor_C_G_not_false :
  IsAncestor 6 testRepo "A" "J" = Some (true, None) ∧
  IsAncestor 6 testRepo "C" "G" = Some (true, None) ∧
  IsAncestor 6 testRepo "C" "G" ≠ Some (false, None).
Proof. split_and!; [by vm_compute | by vm_compute | by vm_compute]. Qed.

(** C3, as the code has it. Whenever the breadth-first enumeration of
    [b] returns a list without error, [IsAncestor(a, b)] returns, without
    error and within the same bound, true exactly when [a] is [b] itself
    or appears in the enumeration. *)
Theorem IsAncestor_agrees_with_ancestors
    (r : mockRepoForTest) (fuel : nat) (a b : string) (l : list string) :
  ancestors fuel r b = Some (l, None) →
  IsAncestor fuel r a b = Some (bool_decide (a = b ∨ a ∈ l), None).
Proof. apply IsAncestor_of_ancestors. Qed.

Lemma IsAncestor_agrees_with_ancestors_witness :
  ancestors 7 testRepo "G" = Some (["E"; "D"; "B"; "C"; "A"; "A"], None) ∧
  IsAncestor 7 testRepo "C" "G" = Some (true, None) ∧
  IsAncestor 7 testRepo "F" "G" = Some (false, None).
Proof.
  assert (ancestors 7 testRepo "G" = Some (["E"; "D"; "B"; "C"; "A"; "A"], None)) as H
    by (vm_compute; reflexivity).
  split; [exact H|].
  split.
  - exact (IsAncestor_agrees_with_ancestors testRepo 7 "C" "G" _ H).
  - exact (IsAncestor_agrees_with_ancestors testRepo 7 "F" "G" _ H).
Defined.

(** C3 fails as stated: commit A is present, [IsAncestor("A", "A")] is
    true, and A does not appear in its own enumeration. *)
Lemma ancestors_excludes_the_commit :
  is_Some (Commits testRepo !! "A") ∧
  ancestors 7 testRepo "A" = Some ([], None) ∧
  IsAncestor 7 testRepo "A" "A" = Some (true, None) ∧
  ¬ ("A" ∈ ([] : list string) ↔
     IsAncestor 7 testRepo "A" "A" = Some (true, None)).
Proof.
  split_and!; [vm_compute; eauto | by vm_compute | by vm_compute |].
  intros [_ H]. eapply elem_of_nil, H. by vm_compute.
Qed.

(** C4. Whenever [MergeBase(a, b)] returns a non-empty result without
    error, [IsAncestor(result, a)] and [IsAncestor(result, b)] both return
    true. *)
Theorem MergeBase_is_common_ancestor
    (r : mockRepoForTest) (fuel : nat) (a b result : string) :
  MergeBase fuel r a b = Some (result, None) →
  result ≠ "" →
  IsAncestor fuel r result a = Some (true, None) ∧
  IsAncestor fuel r result b = Some (true, None).
Proof.
  unfold MergeBase. intros H Hne.
  destruct (ancestors fuel r a) as [[l [err|]]|] eqn:Hanc; [done| |done].
  destruct (range_first (λ ancestor, IsAncestor fuel r ancestor b) l)
    as [[x|]|] eqn:Hfirst; [|by simplify_eq|done].
  simplify_eq. apply range_first_Some in Hfirst as [Hin Hb].
  split; [|done].
  rewrite (IsAncestor_of_ancestors r fuel result a l Hanc).
  rewrite bool_decide_eq_true_2; [done | by right].
Qed.

Lemma MergeBase_is_common_ancestor_witness :
  MergeBase 7 testRepo "I" "J" = Some ("F", None) ∧
  IsAncestor 7 testRepo "F" "I" = Some (true, None) ∧
  IsAncestor 7 testRepo "F" "J" = Some (true, None).
Proof.
  split; [vm_compute; reflexivity|].
  apply (MergeBase_is_common_ancestor testRepo 7 "I" "J" "F").
  - vm_compute; reflexivity.
  - discriminate.
Defined.

(** C1, as the code has it. In a well-formed store, for every identifier
    [a] of a commit present in the commit store, [MergeBase(a, a)]
    returns without error the first parent of the commit that [a] resolves
    to, and the empty string when that commit has no parent: the
    enumeration it scans starts at the parents and leaves [a] out. This
    result is [a] itself in one case only, when [a] is the empty string and
    its commit has no parent. *)
Theorem MergeBase_same_argument (r : mockRepoForTest) (a : string) :
  WellFormed r →
  is_Some (Commits r !! a) →
  (∃ fuel0, ∀ fuel, fuel0 ≤ fuel →
     MergeBase fuel r a a = Some (hd "" (parents_of r a), None)) ∧
  (hd "" (parents_of r a) = a → a = "" ∧ parents_of r a = []).
Proof.
  intros Hwf Ha.
  assert (resolves r a) as Hres.
  { apply resolves_known. unfold known. apply elem_of_union_r. by apply elem_of_dom. }
  split.
  - destruct (ancestors_terminates r a Hwf Hres) as (fuel0 & l & Hl).
    exists fuel0. intros fuel Hle.
    by eapply MergeBase_same_of_ancestors, Hl.
  - destruct Hwf as [rank Hrank].
    destruct (parents_of r a) as [|p ps] eqn:Hps; simpl; [by intros <-|].
    intros ->. destruct (Hrank a a) as [_ Hlt]; [|lia].
    split; [done|]. rewrite Hps. by left.
Qed.

Lemma MergeBase_same_argument_witness :
  WellFormed testRepo ∧
  is_Some (Commits testRepo !! "B") ∧
  ∃ fuel0, ∀ fuel, fuel0 ≤ fuel →
    MergeBase fuel testRepo "B" "B" = Some ("A", None).
Proof.
  split; [exact testRepo_WellFormed|].
  split; [vm_compute; eauto|].
  destruct (MergeBase_same_argument testRepo "B") as [Hret _].
  - exact testRepo_WellFormed.
  - vm_compute; eauto.
  - exact Hret.
Defined.

(** The one case where the result is the argument: a store whose only
    commit is a root stored under the empty identifier. *)
Example MergeBase_of_the_empty_identifier :
  let r := MockRepoForTest "h" ∅ (<["" := MockCommit "root" "0" []]> ∅) ∅ in
  MergeBase 1 r "" "" = Some ("", None).
Proof. by vm_compute. Qed.

(** C1 fails as stated: B is a commit of the test repository and
    [MergeBase("B", "B")] returns A; for the root A it returns the empty
    string. *)
Lemma MergeBase_same_argument_is_not_identity :
  is_Some (Commits testRepo !! "B") ∧
  MergeBase 7 testRepo "B" "B" = Some ("A", None) ∧
  MergeBase 7 testRepo "B" "B" ≠ Some ("B", None) ∧
  MergeBase 7 testRepo "A" "A" = Some ("", None).
Proof.
  split_and!; [vm_compute; eauto | by vm_compute | by vm_compute | by vm_compute].
Qed.

(** ** Ref resolution claims *)

Lemma split_at_first_unfold (old s : string) :
  split_at_first old s =
    match strip_prefix old s with
    | Some after => Some (EmptyString, after)
    | None =>
      match s with
      | EmptyString => None
      | String c s' =>
        match split_at_first old s' with
        | Some (before, after) => Some (String c before, after)
        | None => None
        end
      end
    end.
Proof. by destruct s. Qed.

Lemma strip_prefix_Some (p s after : string) :
  strip_prefix p s = Some after ↔ s = p +:+ after.
Proof.
  revert s. induction p as [|a p IH]; intros s; simpl.
  { split; [by intros [= ->] | by intros ->]. }
  destruct s as [|b s]; [done|].
  case_decide as Hab.
  - subst. rewrite IH. split; [by intros -> | by intros [= ->]].
  - split; [done | intros [= ? ?]; by subst].
Qed.

Lemma string_app_inv_length (b1 b2 r1 r2 : string) :
  b1 +:+ r1 = b2 +:+ r2 → String.length b1 = String.length b2 → b1 = b2 ∧ r1 = r2.
Proof.
  revert b2. induction b1 as [|c b1 IH]; intros [|c2 b2]; simpl; try done.
  intros [= -> H] [= Hlen]. destruct (IH _ H Hlen) as [-> ->]. done.
Qed.

(** [split_at_first] finds an occurrence, and the leftmost one. *)
Lemma split_at_first_Some (old s before after : string) :
  split_at_first old s = Some (before, after) →
  s = before +:+ old +:+ after ∧
  ∀ before' after', s = before' +:+ old +:+ after' →
    String.length before ≤ String.length before'.
Proof.
  revert before. induction s as [|c s IH]; intros before; rewrite split_at_first_unfold.
  - destruct (strip_prefix old "") as [t|] eqn:E; [|done].
    intros [= <- <-]. apply strip_prefix_Some in E.
    split; [done|]. intros; simpl; lia.
  - destruct (strip_prefix old (String c s)) as [t|] eqn:E.
    { intros [= <- <-]. apply strip_prefix_Some in E.
      split; [done|]. intros; simpl; lia. }
    destruct (split_at_first old s) as [[b a]|] eqn:Hrec; [|done].
    intros [= <- <-]. destruct (IH b eq_refl) as [-> Hleft].
    split; [done|].
    intros [|c' before'] after' Heq; simpl in Heq.
    + apply (proj2 (strip_prefix_Some old _ after')) in Heq. congruence.
    + injection Heq as -> Heq. apply Hleft in Heq. simpl. lia.
Qed.

Lemma split_at_first_None (old s : string) :
  split_at_first old s = None → ∀ before after, s ≠ before +:+ old +:+ after.
Proof.
  induction s as [|c s IH]; rewrite split_at_first_unfold.
  - destruct (strip_prefix old "") as [t|] eqn:E; [done|].
    intros _ [|c' before] after Heq; [|done].
    apply (proj2 (strip_prefix_Some old _ after)) in Heq. congruence.
  - destruct (strip_prefix old (String c s)) as [t|] eqn:E; [done|].
    destruct (split_at_first old s) as [[b a]|] eqn:Hrec; [done|].
    intros _ [|c' before] after Heq; simpl in Heq.
    + apply (proj2 (strip_prefix_Some old _ after)) in Heq. congruence.
    + injection Heq as -> Heq. by eapply IH.
Qed.

(** [strings.Replace(s, old, new, 1)] rewrites the leftmost occurrence
    of [old] and nothing else. *)
Lemma strings_Replace1_first (s old new before after : string) :
  s = before +:+ old +:+ after →
  (∀ before' after', s = before' +:+ old +:+ after' →
     String.length before ≤ String.length before') →
  strings_Replace1 s old new = before +:+ new +:+ after.
Proof.
  intros Hs Hleft. unfold strings_Replace1.
  destruct (split_at_first old s) as [[b a]|] eqn:E.
  - apply split_at_first_Some in E as [Hs' Hleft'].
    assert (String.length b = String.length before) as Hlen.
    { apply Nat.le_antisymm; [exact (Hleft' before after Hs) | exact (Hleft b a Hs')]. }
    rewrite Hs in Hs'. symmetry in Hs'.
    destruct (string_app_inv_length _ _ _ _ Hs' Hlen) as [-> Hrest].
    assert (String.length old = String.length old) as Hold by done.
    by destruct (string_app_inv_length _ _ _ _ Hrest Hold) as [_ ->].
  - by apply split_at_first_None with (before := before) (after := after) in E.
Qed.

Lemma strings_Replace1_absent (s old new : string) :
  (∀ before after, s ≠ before +:+ old +:+ after) →
  strings_Replace1 s old new = s.
Proof.
  intros Hno. unfold strings_Replace1.
  destruct (split_at_first old s) as [[b a]|] eqn:E; [|done].
  apply split_at_first_Some in E as [Hs _]. by apply Hno in Hs.
Qed.

(** C5. [ResolveRefCommit(ref)] first resolves [ref] locally, through the
    ref table and then as a raw commit identifier, and returns that result
    when it succeeds. When it fails, the result is that of one more local
    resolution, of [ref] with the first occurrence of ["refs/heads/"]
    replaced by ["refs/remotes/origin/"]; when this one fails too, the
    error returned is its own and names the rewritten ref. *)
Theorem ResolveRefCommit_remote_fallback (r : mockRepoForTest) (ref : string) :
  let remote := strings_Replace1 ref "refs/heads/" "refs/remotes/origin/" in
  (∀ commit, Refs r !! ref = Some commit → ResolveRefCommit r ref = (commit, None)) ∧
  (Refs r !! ref = None → is_Some (Commits r !! ref) →
     ResolveRefCommit r ref = (ref, None)) ∧
  (Refs r !! ref = None → Commits r !! ref = None →
     resolveLocalRef r ref = ("", Some (RefDoesNotExist ref)) ∧
     ResolveRefCommit r ref = resolveLocalRef r remote ∧
     (Refs r !! remote = None → Commits r !! remote = None →
        ResolveRefCommit r ref = ("", Some (RefDoesNotExist remote)))) ∧
  (∀ before after,
     ref = before +:+ "refs/heads/" +:+ after →
     (∀ before' after', ref = before' +:+ "refs/heads/" +:+ after' →
        String.length before ≤ String.length before') →
     remote = before +:+ "refs/remotes/origin/" +:+ after) ∧
  ((∀ before after, ref ≠ before +:+ "refs/heads/" +:+ after) → remote = ref).
Proof.
  intros remote. unfold ResolveRefCommit. split_and!.
  - intros commit H. unfold resolveLocalRef at 1. by rewrite H.
  - intros H [c Hc]. unfold resolveLocalRef at 1. by rewrite H, Hc.
  - intros H1 H2.
    assert (resolveLocalRef r ref = ("", Some (RefDoesNotExist ref))) as Hloc.
    { unfold resolveLocalRef. by rewrite H1, H2. }
    rewrite Hloc. split_and!; [done..|].
    intros H3 H4. unfold resolveLocalRef.
    change (strings_Replace1 ref "refs/heads/" "refs/remotes/origin/") with remote.
    by rewrite H3, H4.
  - intros before after. apply strings_Replace1_first.
  - apply strings_Replace1_absent.
Qed.

(** A repository that knows ["refs/heads/master"] only as a
    remote-tracking ref. *)
Example ResolveRefCommit_remote_only :
  let r := MockRepoForTest "refs/heads/topic"
             (<["refs/remotes/origin/master" := "J"]> ∅) (Commits testRepo) ∅ in
  ResolveRefCommit r "refs/heads/master" = ("J", None) ∧
  ResolveRefCommit r "refs/heads/other" =
    ("", Some (RefDoesNotExist "refs/remotes/origin/other")).
Proof. by vm_compute. Qed.

Lemma ResolveRefCommit_remote_fallback_witness :
  Refs testRepo !! "refs/heads/absent" = None ∧
  Commits testRepo !! "refs/heads/absent" = None ∧
  Refs testRepo !! "refs/remotes/origin/absent" = None ∧
  Commits testRepo !! "refs/remotes/origin/absent" = None ∧
  ResolveRefCommit testRepo "refs/heads/absent" =
    ("", Some (RefDoesNotExist "refs/remotes/origin/absent")).
Proof.
  split_and!; [vm_compute; reflexivity..|].
  destruct (ResolveRefCommit_remote_fallback testRepo "refs/heads/absent")
    as (_ & _ & Hfail & _ & _).
  destruct Hfail as (_ & _ & Hboth); [vm_compute; reflexivity..|].
  apply Hboth; vm_compute; reflexivity.
Defined.

(** C9. When [GetCommitHash] is called with a known commit identifier
    that is not a key of the ref table, it returns the empty string with a
    nil error: the verification succeeds through the raw-commit path and
    the result is then read from the ref table. *)
Theorem GetCommitHash_raw_commit_identifier (r : mockRepoForTest) (ref : string) :
  is_Some (Commits r !! ref) →
  Refs r !! ref = None →
  GetCommitHash r ref = ("", None).
Proof.
  intros [c Hc] Href. unfold GetCommitHash, VerifyGitRef, resolveLocalRef, index_str.
  by rewrite Href, Hc.
Qed.

Lemma GetCommitHash_raw_commit_identifier_witness :
  is_Some (Commits testRepo !! "A") ∧
  Refs testRepo !! "A" = None ∧
  GetCommitHash testRepo "A" = ("", None).
Proof.
  split; [vm_compute; eauto|].
  split; [vm_compute; reflexivity|].
  apply (GetCommitHash_raw_commit_identifier testRepo "A").
  - vm_compute; eauto.
  - vm_compute; reflexivity.
Defined.

(** ** Claims on the methods with side effects *)

(** C10. [SwitchToRef(ref)] always returns nil and leaves the heap as it
    was; its body did assign [ref] to [Head], but in the receiver copy
    that the call discards, so [GetHeadRef] on the caller's repository
    value returns after the call the head it returned before. *)
Theorem SwitchToRef_changes_nothing (r : mockRepoForTest) (ref : string) (h : heap) :
  SwitchToRef r ref h = (Returns None, h) ∧
  (∃ copy, SwitchToRef_body ref r h = (Returns None, copy, h) ∧ Head copy = ref) ∧
  (let '(_, _) := SwitchToRef r ref h in GetHeadRef r) = (Head r, None).
Proof. split_and!; [done | by eexists | done]. Qed.

(** The setting of C6 where the code does what the claim says: the notes
    ref has a table. The call returns nil and the table then holds the
    prior payload, a line feed and the note; the caller sees it through
    its own repository value. *)
Lemma AppendNote_existing_table
    (r : mockRepoForTest) (ref revision note : string) (h : heap) (a : addr) :
  Notes r !! ref = Some (MapAt a) →
  ∃ h', AppendNote r ref revision note h = (Returns None, h') ∧
        deref h' (index_notes (Notes r) ref) !! revision =
          Some (index_str (deref h (index_notes (Notes r) ref)) revision +:+ LF +:+ note).
Proof.
  intros Hn. unfold AppendNote, call_by_value, AppendNote_body, index_notes.
  rewrite Hn. simpl. eexists. split; [done|].
  rewrite lookup_insert_eq. simpl. by rewrite lookup_insert_eq.
Qed.

Lemma AppendNote_nil_table
    (r : mockRepoForTest) (ref revision note : string) (h : heap) :
  index_notes (Notes r) ref = NilMap →
  AppendNote r ref revision note h = (Panics "assignment to entry in nil map", h).
Proof.
  intros Hn. unfold AppendNote, call_by_value, AppendNote_body.
  by rewrite Hn.
Qed.

(** C6 on the code. On the pre-populated repository, appending a note
    under a notes ref that has no table yet does not return: the
    assignment into the nil inner map panics, and nothing is stored. *)
Theorem AppendNote_fresh_ref_panics :
  Notes testRepo !! "refs/notes/devtools/other" = None ∧
  AppendNote testRepo "refs/notes/devtools/other" "A" "note" testHeap =
    (Panics "assignment to entry in nil map", testHeap).
Proof. split; [by vm_compute | by apply AppendNote_nil_table]. Qed.

(** ** The state hash *)

#[global] Instance string_le_total : Total string_le.
Proof. intros s1 s2. apply String.leb_total. Qed.

#[global] Instance string_le_antisymm : AntiSymm (=) string_le.
Proof. intros s1 s2. apply String.leb_antisym. Qed.

#[global] Instance string_le_trans : Transitive string_le.
Proof.
  unfold string_le, String.leb. intros s1.
  induction s1 as [|a s1 IH]; intros [|b s2] [|c s3]; simpl; try done.
  unfold Ascii.compare.
  destruct (N.compare_spec (N_of_ascii a) (N_of_ascii b)) as [Hab|Hab|Hab];
    destruct (N.compare_spec (N_of_ascii b) (N_of_ascii c)) as [Hbc|Hbc|Hbc];
    try done.
  - rewrite Hab, Hbc, N.compare_refl. apply IH.
  - intros _ _. rewrite Hab. by rewrite (proj2 (N.compare_lt_iff _ _) Hbc).
  - intros _ _. rewrite <- Hbc. by rewrite (proj2 (N.compare_lt_iff _ _) Hab).
  - intros _ _. by rewrite (proj2 (N.compare_lt_iff _ _) (N.lt_trans _ _ _ Hab Hbc)).
Qed.

(** Sorting forgets the order in which the runtime handed out the keys. *)
Lemma sorted_keys_canonical (o1 o2 : range_order) (X : gset string) :
  merge_sort string_le (MapKeys o1 X) = merge_sort string_le (MapKeys o2 X).
Proof.
  apply (Sorted_unique string_le); [apply Sorted_merge_sort, _..|].
  by rewrite !merge_sort_Permutation, !MapKeys_perm.
Qed.

Lemma encodeMap_ext {V : Type} (o1 o2 : range_order) (enc1 enc2 : V → string)
    (m1 m2 : gmap string V) :
  dom m1 = dom m2 →
  (∀ k, from_option enc1 EmptyString (m1 !! k) = from_option enc2 EmptyString (m2 !! k)) →
  encodeMap o1 enc1 m1 = encodeMap o2 enc2 m2.
Proof.
  intros Hdom Hval. unfold encodeMap.
  rewrite Hdom, (sorted_keys_canonical o1 o2). f_equal.
  apply list_fmap_ext. intros _ k _. by rewrite Hval.
Qed.

Lemma encodeMap_order {V : Type} (o1 o2 : range_order) (enc : V → string)
    (m : gmap string V) :
  encodeMap o1 enc m = encodeMap o2 enc m.
Proof. by apply encodeMap_ext. Qed.

Lemma encodeTable_content (o1 o2 : range_order) (h1 h2 : heap) (r1 r2 : mockRepoForTest) :
  notes_content h1 r1 = notes_content h2 r2 →
  encodeMap o1 (encodeTable o1 h1) (Notes r1) = encodeMap o2 (encodeTable o2 h2) (Notes r2).
Proof.
  intros Hc. apply encodeMap_ext.
  - apply (f_equal dom) in Hc. unfold notes_content in Hc. by rewrite !dom_fmap_L in Hc.
  - intros k. apply (f_equal (.!! k)) in Hc. unfold notes_content in Hc.
    rewrite !lookup_fmap in Hc.
    destruct (Notes r1 !! k) as [[|a1]|], (Notes r2 !! k) as [[|a2]|];
      simpl in *; try done.
    injection Hc as Hc. rewrite Hc. apply encodeMap_order.
Qed.

Lemma notes_content_empty (h : heap) (r : mockRepoForTest) :
  notes_content h r = ∅ ↔ Notes r = ∅.
Proof. unfold notes_content. apply fmap_empty_iff. Qed.

Lemma encodeRepo_content (o1 o2 : range_order) (h1 h2 : heap) (r1 r2 : mockRepoForTest) :
  Head r1 = Head r2 → Refs r1 = Refs r2 → Commits r1 = Commits r2 →
  notes_content h1 r1 = notes_content h2 r2 →
  encodeRepo o1 h1 r1 = encodeRepo o2 h2 r2.
Proof.
  intros HH HR HC HN. unfold encodeRepo. rewrite HH, HR, HC.
  rewrite (encodeMap_order o1 o2 encodeString), (encodeMap_order o1 o2 encodeCommit).
  rewrite (encodeTable_content o1 o2 h1 h2 r1 r2 HN).
  do 5 f_equal.
  destruct (decide (Notes r1 = ∅)) as [E1|E1], (decide (Notes r2 = ∅)) as [E2|E2];
    try done.
  - apply (notes_content_empty h1) in E1. rewrite HN in E1.
    by apply notes_content_empty in E1.
  - apply (notes_content_empty h2) in E2. rewrite <- HN in E2.
    by apply notes_content_empty in E2.
Qed.

(** The digest function on two known inputs. *)
Example sha1_Sum_abc :
  hex_of_bytes (sha1_Sum (bytes_of_string "abc")) =
    "a9993e364706816aba3e25717850c26c9cd0d89d".
Proof. by vm_compute. Qed.

Example sha1_Sum_empty :
  hex_of_bytes (sha1_Sum []) = "da39a3ee5e6b4b0d3255bfef95601890afd80709".
Proof. by vm_compute. Qed.

Example GetRepoStateHash_testRepo :
  GetRepoStateHash descending_order testHeap testRepo =
    ("1f59e8433be53c81bdb69aecfab1c9656cb5c3f8", None).
Proof. by vm_compute. Qed.

(** C7, as the code has it. [GetRepoStateHash] returns the same hash,
    with no error, for any two repository values with the same [Head] and
    identical content of refs, commits and notes, wherever the note tables
    are allocated and in whatever order the runtime enumerates the keys of
    the maps: the serialization sorts them. *)
Theorem GetRepoStateHash_deterministic
    (o1 o2 : range_order) (h1 h2 : heap) (r1 r2 : mockRepoForTest) :
  Head r1 = Head r2 →
  Refs r1 = Refs r2 →
  Commits r1 = Commits r2 →
  notes_content h1 r1 = notes_content h2 r2 →
  GetRepoStateHash o1 h1 r1 = GetRepoStateHash o2 h2 r2 ∧
  snd (GetRepoStateHash o1 h1 r1) = None.
Proof.
  intros HH HR HC HN. unfold GetRepoStateHash, json_Marshal.
  by rewrite (encodeRepo_content o1 o2 h1 h2 r1 r2 HH HR HC HN).
Qed.

(** The relocated test repository holds the same notes at other
    addresses. *)
Lemma relocated_notes_content :
  notes_content testHeap testRepo = notes_content relocatedHeap relocatedRepo.
Proof.
  apply map_eq. intros k. unfold notes_content. rewrite !lookup_fmap.
  unfold relocatedRepo, relocatedHeap, testRepo, NewMockRepoForTest. simpl.
  rewrite !lookup_insert. destruct (decide (TestRequestsRef = k)) as [_|_]; simpl.
  { by rewrite !lookup_insert_eq. }
  destruct (decide (TestCommentsRef = k)) as [_|_]; simpl; [|done].
  rewrite lookup_insert_ne by done. by rewrite lookup_insert_eq.
Qed.

Lemma GetRepoStateHash_deterministic_witness :
  notes_content testHeap testRepo = notes_content relocatedHeap relocatedRepo ∧
  index_notes (Notes testRepo) TestRequestsRef ≠
    index_notes (Notes relocatedRepo) TestRequestsRef ∧
  GetRepoStateHash ascending_order testHeap testRepo =
    GetRepoStateHash descending_order relocatedHeap relocatedRepo ∧
  snd (GetRepoStateHash ascending_order testHeap testRepo) = None.
Proof.
  split; [exact relocated_notes_content|].
  split; [vm_compute; discriminate|].
  apply (GetRepoStateHash_deterministic ascending_order descending_order
           testHeap relocatedHeap testRepo relocatedRepo).
  - reflexivity.
  - reflexivity.
  - reflexivity.
  - exact relocated_notes_content.
Defined.

(** C7 fails as stated: two repository values with identical refs,
    commits and notes, and a different [Head], have different hashes. *)
Lemma GetRepoStateHash_depends_on_Head :
  Refs testRepo = Refs reviewRepo ∧
  Commits testRepo = Commits reviewRepo ∧
  Notes testRepo = Notes reviewRepo ∧
  GetRepoStateHash ascending_order testHeap testRepo ≠
    GetRepoStateHash ascending_order testHeap reviewRepo.
Proof. split_and!; [done | done | done | by vm_compute]. Qed.

(** * Further properties of the code *)

(** ** The breadth-first enumeration *)

Section enumeration.
Context (r : mockRepoForTest).

Lemma not_resolves_getCommit c :
  ¬ resolves r c →
  getCommit r c = (index_commit (Commits r) EmptyString, Some (RefDoesNotExist c)).
Proof.
  unfold resolves, getCommit, resolveLocalRef.
  destruct (Refs r !! c); [done|]. destruct (Commits r !! c); done.
Qed.

Lemma ancestors_range_inr queue nextQueue acc err :
  ancestors_range r queue nextQueue acc = inr err →
  ∃ c, c ∈ queue ∧ ¬ resolves r c ∧ err = RefDoesNotExist c.
Proof.
  revert nextQueue acc. induction queue as [|c queue IH]; intros nextQueue acc; [done|].
  simpl. destruct (decide (resolves r c)) as [Hc|Hc].
  - rewrite (getCommit_resolves r c Hc). intros H.
    apply IH in H as (c' & Hin & Hno & ->). exists c'. split; [by right | done].
  - rewrite (not_resolves_getCommit c Hc). intros [= <-].
    exists c. split; [by left | done].
Qed.

Lemma ancestors_loop_generations fuel queue acc l :
  ancestors_loop fuel r queue acc = Some (l, None) →
  ∃ n, n ≤ fuel ∧ generation r n queue = [] ∧
       (∀ k, k < n → generation r k queue ≠ [] ∧ Forall (resolves r) (generation r k queue)) ∧
       l = acc ++ mjoin ((λ k, generation r k queue) <$> seq 1 n).
Proof.
  revert queue acc. induction fuel as [|fuel IH]; intros queue acc H.
  - destruct queue; [|done]. simpl in H. simplify_eq.
    exists 0. split_and!; [done | done | intros; lia | by rewrite app_nil_r].
  - destruct queue as [|c0 queue].
    { simpl in H. simplify_eq.
      exists 0. split_and!; [lia | done | intros; lia | by rewrite app_nil_r]. }
    apply ancestors_loop_S in H as [Hq H].
    apply IH in H as (n & Hn & Hend & Hbefore & ->).
    exists (S n). split_and!; [lia | done | |].
    + intros [|k] Hk; [done|]. apply Hbefore. lia.
    + rewrite <- app_assoc. f_equal. cbn [seq fmap list_fmap mjoin list_join].
      f_equal. by rewrite <- (fmap_S_seq 1 n), <- list_fmap_compose.
Qed.

Lemma ancestors_loop_error fuel queue acc l err :
  ancestors_loop fuel r queue acc = Some (l, Some err) →
  l = [] ∧ ∃ q c, q ∈ queue ∧ rtc (step r) q c ∧ ¬ resolves r c ∧ err = RefDoesNotExist c.
Proof.
  revert queue acc. induction fuel as [|fuel IH]; intros queue acc H.
  { by destruct queue. }
  destruct queue as [|c0 queue]; [done|].
  cbn [ancestors_loop] in H.
  destruct (ancestors_range r (c0 :: queue) [] acc) as [[nq acc']|e] eqn:E.
  - pose proof E as E'. apply ancestors_range_spec in E' as (Hq & -> & ->).
    apply IH in H as [-> (p & c & Hp & Hpc & Hc & ->)].
    split; [done|]. simpl in Hp.
    apply (elem_of_next_queue r _ _ Hq) in Hp as (q & Hq' & Hs).
    exists q, c. split_and!; [done | by eapply rtc_l | done | done].
  - simplify_eq. apply ancestors_range_inr in E as (c & Hin & Hc & ->).
    split; [done|]. exists c, c. by split_and!.
Qed.

Lemma tc_step_rank (rank : string → nat) a x :
  (∀ c p, step r c p → resolves r p ∧ rank p < rank c) →
  tc (step r) a x → rank x < rank a.
Proof.
  intros Hwf. induction 1 as [a x Hs|a y x Hs _ IH].
  - by apply Hwf.
  - apply Hwf in Hs as [_ ?]. lia.
Qed.
End enumeration.

(** X1. When [ancestors(b)] returns a list without error, the list holds
    exactly the identifiers reached from [b] by one parent edge or
    more. *)
Theorem ancestors_enumerates_reachable
    (r : mockRepoForTest) (fuel : nat) (b : string) (l : list string) :
  ancestors fuel r b = Some (l, None) →
  ∀ x, x ∈ l ↔ tc (step r) b x.
Proof. apply ancestors_spec. Qed.

Lemma ancestors_enumerates_reachable_witness :
  ancestors 7 testRepo "D" = Some (["B"; "C"; "A"; "A"], None) ∧
  tc (step testRepo) "D" "A".
Proof.
  assert (ancestors 7 testRepo "D" = Some (["B"; "C"; "A"; "A"], None)) as H
    by (vm_compute; reflexivity).
  split; [exact H|].
  apply (ancestors_enumerates_reachable testRepo 7 "D" _ H "A").
  vm_compute. right; right; left.
Defined.

(** X2. The list that [ancestors(b)] returns is breadth-first: it is the
    concatenation of the generations of [b], parents first, then the
    parents of these one after the other, up to the first empty
    generation; an identifier reached along several paths is listed once
    per path. *)
Theorem ancestors_is_generations
    (r : mockRepoForTest) (fuel : nat) (b : string) (l : list string) :
  ancestors fuel r b = Some (l, None) →
  ∃ n, n ≤ fuel ∧ generation r n [b] = [] ∧
       (∀ k, k < n → generation r k [b] ≠ []) ∧
       l = mjoin ((λ k, generation r k [b]) <$> seq 1 n).
Proof.
  intros H. apply ancestors_loop_generations in H as (n & ? & ? & Hk & ->).
  exists n. split_and!; [done | done | | done]. intros k Hlt. by apply Hk.
Qed.

Lemma ancestors_is_generations_witness :
  ∃ n, n ≤ 7 ∧ generation testRepo n ["D"] = [] ∧
       (∀ k, k < n → generation testRepo k ["D"] ≠ []) ∧
       ["B"; "C"; "A"; "A"] = mjoin ((λ k, generation testRepo k ["D"]) <$> seq 1 n).
Proof.
  apply (ancestors_is_generations testRepo 7 "D"). vm_compute; reflexivity.
Defined.

(** X3. When [ancestors(b)] returns an error, the list it returns is nil
    and the error names an identifier that does not resolve and that is
    [b] itself or is reached from [b] through parents that resolve. *)
Theorem ancestors_error_names_missing_commit
    (r : mockRepoForTest) (fuel : nat) (b : string) (l : list string) (err : error) :
  ancestors fuel r b = Some (l, Some err) →
  l = [] ∧ ∃ c, rtc (step r) b c ∧ ¬ resolves r c ∧ err = RefDoesNotExist c.
Proof.
  intros H. apply ancestors_loop_error in H as [-> (q & c & Hq & Hqc & Hc & ->)].
  apply list_elem_of_singleton in Hq as ->. split; [done|]. by exists c.
Qed.

Lemma ancestors_error_names_missing_commit_witness :
  let r := MockRepoForTest "h" ∅ (<["B" := MockCommit "m" "1" ["A"]]> ∅) ∅ in
  ancestors 3 r "B" = Some ([], Some (RefDoesNotExist "A")) ∧
  ∃ c, rtc (step r) "B" c ∧ ¬ resolves r c ∧ RefDoesNotExist "A" = RefDoesNotExist c.
Proof.
  intros r.
  assert (ancestors 3 r "B" = Some ([], Some (RefDoesNotExist "A"))) as H
    by (vm_compute; reflexivity).
  split; [exact H|].
  exact (proj2 (ancestors_error_names_missing_commit r 3 "B" _ _ H)).
Defined.

(** X4. On a well-formed store [ancestors(b)] returns a list without
    error for every identifier [b] that resolves: the loop comes to an
    end, and more iterations allowed do not change the list. *)
Theorem ancestors_returns_on_well_formed_store (r : mockRepoForTest) (b : string) :
  WellFormed r → resolves r b →
  ∃ fuel0 l, ∀ fuel, fuel0 ≤ fuel → ancestors fuel r b = Some (l, None).
Proof. apply ancestors_terminates. Qed.

Lemma ancestors_returns_on_well_formed_store_witness :
  WellFormed testRepo ∧ resolves testRepo "refs/heads/master" ∧
  ∃ fuel0 l, ∀ fuel, fuel0 ≤ fuel →
    ancestors fuel testRepo "refs/heads/master" = Some (l, None).
Proof.
  split; [exact testRepo_WellFormed|]. split; [vm_compute; reflexivity|].
  apply (ancestors_returns_on_well_formed_store testRepo "refs/heads/master").
  - exact testRepo_WellFormed.
  - vm_compute; reflexivity.
Defined.

(** ** The ancestry test *)

Section ancestry_test.
Context (r : mockRepoForTest).

Lemma IsAncestor_true_reaches fuel a d :
  IsAncestor fuel r a d = Some (true, None) → rtc (step r) d a.
Proof.
  revert d. induction fuel as [|fuel IH]; intros d; [done|].
  cbn [IsAncestor]. case_decide as Had; [intros _; subst; apply rtc_refl|].
  destruct (getCommit r d) as [commit [err|]] eqn:E; [done|].
  destruct (range_first (IsAncestor fuel r a) (Parents commit)) as [[p|]|] eqn:Hfirst;
    [|done..].
  intros _. apply range_first_Some in Hfirst as [Hp Hpa].
  eapply rtc_l; [|by apply IH]. split.
  - unfold resolves. by rewrite E.
  - unfold parents_of. by rewrite E.
Qed.

Lemma IsAncestor_on_known_history a d :
  WellFormed r → resolves r d →
  ∃ fuel0 (res : bool), (res = true ↔ rtc (step r) d a) ∧
    ∀ fuel, fuel0 ≤ fuel → IsAncestor fuel r a d = Some (res, None).
Proof.
  intros Hwf Hd. destruct (ancestors_terminates r d Hwf Hd) as (fuel0 & l & Hl).
  exists fuel0, (bool_decide (a = d ∨ a ∈ l)). split.
  - rewrite bool_decide_eq_true, rtc_tc, (ancestors_spec r _ _ _ (Hl fuel0 (le_n _)) a).
    split; (intros [?|?]; [by left | by right]).
  - intros fuel Hle. by apply IsAncestor_of_ancestors, Hl.
Qed.

Lemma IsAncestor_unknown_descendant fuel a d :
  ¬ resolves r d →
  IsAncestor (S fuel) r a d =
    if decide (a = d) then Some (true, None) else Some (false, Some (RefDoesNotExist d)).
Proof.
  intros Hd. cbn [IsAncestor]. case_decide; [done|].
  by rewrite (not_resolves_getCommit r d Hd).
Qed.

Lemma tc_inv_l (a x : string) :
  tc (step r) a x → ∃ p, step r a p ∧ rtc (step r) p x.
Proof.
  inversion 1 as [? ? Hs|? p ? Hs Hpx]; subst.
  - exists x. split; [done | apply rtc_refl].
  - exists p. split; [done | by apply tc_rtc].
Qed.

Lemma WellFormed_no_cycle a : WellFormed r → ¬ tc (step r) a a.
Proof.
  intros [rank Hwf] Hc. apply (tc_step_rank r rank _ _ Hwf) in Hc. lia.
Qed.

Lemma MergeBase_scan fuel a b l :
  ancestors fuel r a = Some (l, None) →
  MergeBase fuel r a b =
    match range_first (λ ancestor, IsAncestor fuel r ancestor b) l with
    | None => None
    | Some (Some ancestor) => Some (ancestor, None)
    | Some None => Some (EmptyString, None)
    end.
Proof. intros H. unfold MergeBase. by rewrite H. Qed.

Lemma ancestors_elements_resolve fuel b l x :
  ancestors fuel r b = Some (l, None) → x ∈ l → resolves r x.
Proof.
  intros H Hx. apply ancestors_loop_generations in H as (n & _ & Hend & Hk & ->).
  simpl in Hx. apply list_elem_of_join in Hx as (g & Hxg & Hg).
  apply list_elem_of_fmap in Hg as (k & -> & Hkn). apply elem_of_seq in Hkn.
  destruct (decide (k < n)) as [Hlt|Hge].
  - destruct (Hk k Hlt) as [_ Hres]. by eapply Forall_forall in Hres.
  - assert (k = n) as -> by lia. rewrite Hend in Hxg. by apply elem_of_nil in Hxg.
Qed.
End ancestry_test.

(** X5. On any store, well-formed or not, a true result of
    [IsAncestor(a, d)] is backed by the history: [a] is [d] or is reached
    from [d] along parent edges of commits that resolve. *)
Theorem IsAncestor_true_is_reachable
    (r : mockRepoForTest) (fuel : nat) (a d : string) :
  IsAncestor fuel r a d = Some (true, None) → rtc (step r) d a.
Proof. apply IsAncestor_true_reaches. Qed.

Lemma IsAncestor_true_is_reachable_witness :
  IsAncestor 7 testRepo "B" "refs/heads/master" = Some (true, None) ∧
  rtc (step testRepo) "refs/heads/master" "B".
Proof.
  assert (IsAncestor 7 testRepo "B" "refs/heads/master" = Some (true, None)) as H
    by (vm_compute; reflexivity).
  split; [exact H|].
  exact (IsAncestor_true_is_reachable testRepo 7 "B" "refs/heads/master" H).
Defined.

(** X6. [IsAncestor(a, d)] returns an error in one case only: [a] and
    [d] differ and [d] itself does not resolve; the result is then false
    and the error names [d]. A commit missing deeper in the history never
    surfaces as an error. *)
Theorem IsAncestor_error_only_for_descendant
    (r : mockRepoForTest) (fuel : nat) (a d : string) (b : bool) (err : error) :
  IsAncestor (S fuel) r a d = Some (b, Some err) ↔
  b = false ∧ a ≠ d ∧ ¬ resolves r d ∧ err = RefDoesNotExist d.
Proof.
  split.
  - cbn [IsAncestor]. case_decide as Had; [done|].
    destruct (decide (resolves r d)) as [Hd|Hd].
    + rewrite (getCommit_resolves r d Hd).
      by destruct (range_first _ _) as [[?|]|].
    + rewrite (not_resolves_getCommit r d Hd). by intros [= <- <-].
  - intros (-> & Had & Hd & ->).
    rewrite (IsAncestor_unknown_descendant r fuel a d Hd). by rewrite decide_False.
Qed.

(** X7. On a well-formed store [IsAncestor(a, d)] returns for every
    [d] that resolves, without error, and its result is true exactly when
    [a] is [d] or is reached from [d] along parent edges. *)
Theorem IsAncestor_decides_reachability (r : mockRepoForTest) (a d : string) :
  WellFormed r → resolves r d →
  ∃ fuel0 (res : bool), (res = true ↔ rtc (step r) d a) ∧
    ∀ fuel, fuel0 ≤ fuel → IsAncestor fuel r a d = Some (res, None).
Proof. apply IsAncestor_on_known_history. Qed.

Lemma IsAncestor_decides_reachability_witness :
  WellFormed testRepo ∧ resolves testRepo "H" ∧
  ∃ fuel0 (res : bool), (res = true ↔ rtc (step testRepo) "H" "J") ∧
    ∀ fuel, fuel0 ≤ fuel → IsAncestor fuel testRepo "J" "H" = Some (res, None).
Proof.
  split; [exact testRepo_WellFormed|]. split; [vm_compute; reflexivity|].
  apply (IsAncestor_decides_reachability testRepo "J" "H").
  - exact testRepo_WellFormed.
  - vm_compute; reflexivity.
Defined.

(** X8. On a well-formed store the ancestry test is transitive: when
    [IsAncestor(a, b)] and [IsAncestor(b, c)] return true, so does
    [IsAncestor(a, c)]. *)
Theorem IsAncestor_transitive
    (r : mockRepoForTest) (fuel1 fuel2 : nat) (a b c : string) :
  WellFormed r →
  IsAncestor fuel1 r a b = Some (true, None) →
  IsAncestor fuel2 r b c = Some (true, None) →
  ∃ fuel0, ∀ fuel, fuel0 ≤ fuel → IsAncestor fuel r a c = Some (true, None).
Proof.
  intros Hwf Hab Hbc.
  destruct (decide (resolves r c)) as [Hc|Hc].
  - destruct (IsAncestor_on_known_history r a c Hwf Hc) as (fuel0 & res & Hres & Hret).
    exists fuel0. intros fuel Hle. rewrite (Hret fuel Hle).
    assert (res = true) as ->; [|done].
    apply Hres. etrans; by eapply IsAncestor_true_reaches.
  - destruct fuel2 as [|fuel2]; [done|].
    rewrite (IsAncestor_unknown_descendant r fuel2 b c Hc) in Hbc.
    case_decide; [subst|done].
    exists fuel1. intros fuel Hle. by eapply IsAncestor_mono.
Qed.

Lemma IsAncestor_transitive_witness :
  IsAncestor 7 testRepo "C" "E" = Some (true, None) ∧
  IsAncestor 7 testRepo "E" "I" = Some (true, None) ∧
  ∃ fuel0, ∀ fuel, fuel0 ≤ fuel → IsAncestor fuel testRepo "C" "I" = Some (true, None).
Proof.
  split; [vm_compute; reflexivity|]. split; [vm_compute; reflexivity|].
  apply (IsAncestor_transitive testRepo 7 7 "C" "E" "I").
  - exact testRepo_WellFormed.
  - vm_compute; reflexivity.
  - vm_compute; reflexivity.
Defined.

(** X9. [IsAncestor] compares identifiers as they are written: on a
    well-formed store, the commit that a ref points to is not reported as an
    ancestor of that ref, although the ref resolves to it. *)
Theorem IsAncestor_compares_identifiers_literally
    (r : mockRepoForTest) (ref c : string) :
  WellFormed r →
  Refs r !! ref = Some c →
  Refs r !! c = None →
  ∃ fuel0, ∀ fuel, fuel0 ≤ fuel → IsAncestor fuel r c ref = Some (false, None).
Proof.
  intros Hwf Href Hc.
  assert (resolves r ref) as Hres.
  { apply resolves_known. unfold known. apply elem_of_union_l, elem_of_dom. eauto. }
  destruct (IsAncestor_on_known_history r c ref Hwf Hres) as (fuel0 & res & Hiff & Hret).
  exists fuel0. intros fuel Hle. rewrite (Hret fuel Hle).
  destruct res; [|done]. exfalso.
  assert (rtc (step r) ref c) as Hrc by (by apply Hiff).
  apply rtc_inv in Hrc as [->|(p & [_ Hp] & Hpc)]; [congruence|].
  unfold parents_of, getCommit, resolveLocalRef in Hp. rewrite Href in Hp. simpl in Hp.
  destruct (Commits r !! c) as [commit|] eqn:Hcommit.
  - apply (WellFormed_no_cycle r c Hwf).
    eapply tc_rtc_r; [apply tc_once|exact Hpc]. split.
    + apply resolves_known. unfold known. apply elem_of_union_r, elem_of_dom. eauto.
    + unfold parents_of, getCommit, resolveLocalRef. rewrite Hc, Hcommit. simpl.
      unfold index_commit in *. by rewrite Hcommit in *.
  - unfold index_commit in Hp. rewrite Hcommit in Hp. by apply elem_of_nil in Hp.
Qed.

Lemma IsAncestor_compares_identifiers_literally_witness :
  Refs testRepo !! "refs/heads/master" = Some "J" ∧
  Refs testRepo !! "J" = None ∧
  ∃ fuel0, ∀ fuel, fuel0 ≤ fuel →
    IsAncestor fuel testRepo "J" "refs/heads/master" = Some (false, None).
Proof.
  split; [vm_compute; reflexivity|]. split; [vm_compute; reflexivity|].
  apply (IsAncestor_compares_identifiers_literally testRepo "refs/heads/master" "J").
  - exact testRepo_WellFormed.
  - vm_compute; reflexivity.
  - vm_compute; reflexivity.
Defined.

(** ** The merge base *)

(** X10. On a well-formed store a non-empty result of [MergeBase(a, b)]
    is reached from [a] by at least one parent edge and is never [a]
    itself. *)
Theorem MergeBase_is_proper_ancestor
    (r : mockRepoForTest) (fuel : nat) (a b result : string) :
  WellFormed r →
  MergeBase fuel r a b = Some (result, None) →
  result ≠ "" →
  tc (step r) a result ∧ result ≠ a.
Proof.
  intros Hwf H Hne. unfold MergeBase in H.
  destruct (ancestors fuel r a) as [[l [err|]]|] eqn:Hanc; [done| |done].
  destruct (range_first (λ ancestor, IsAncestor fuel r ancestor b) l)
    as [[x|]|] eqn:Hfirst; [|by simplify_eq|done].
  simplify_eq. apply range_first_Some in Hfirst as [Hin _].
  apply (ancestors_spec r _ _ _ Hanc) in Hin.
  split; [done|]. intros ->. by apply (WellFormed_no_cycle r a Hwf).
Qed.

Lemma MergeBase_is_proper_ancestor_witness :
  MergeBase 7 testRepo "D" "B" = Some ("B", None) ∧
  tc (step testRepo) "D" "B" ∧ "B" ≠ "D".
Proof.
  split; [vm_compute; reflexivity|].
  apply (MergeBase_is_proper_ancestor testRepo 7 "D" "B" "B").
  - exact testRepo_WellFormed.
  - vm_compute; reflexivity.
  - discriminate.
Defined.

Lemma first_parent_is_not_the_commit (r : mockRepoForTest) (a : string) :
  WellFormed r → resolves r a →
  hd "" (parents_of r a) = a → a = "" ∧ parents_of r a = [].
Proof.
  intros Hwf Ha. destruct (parents_of r a) as [|p ps] eqn:Hps; simpl; [by intros <-|].
  intros ->. destruct (WellFormed_no_cycle r a Hwf).
  apply tc_once. split; [done|]. rewrite Hps. by left.
Qed.

(** X11. On a well-formed store, when [a] is an ancestor of [b] in the
    sense of [IsAncestor], [MergeBase(a, b)] returns the first parent of
    the commit [a] resolves to, and the empty string when that commit has
    no parent. This result is [a] itself in one case only, when [a] is the
    empty string and its commit has no parent. *)
Theorem MergeBase_of_ancestor_is_its_first_parent
    (r : mockRepoForTest) (fuel1 : nat) (a b : string) :
  WellFormed r →
  resolves r a →
  IsAncestor fuel1 r a b = Some (true, None) →
  (∃ fuel0, ∀ fuel, fuel0 ≤ fuel →
     MergeBase fuel r a b = Some (hd "" (parents_of r a), None)) ∧
  (hd "" (parents_of r a) = a → a = "" ∧ parents_of r a = []).
Proof.
  intros Hwf Ha Hab. split; [|by apply first_parent_is_not_the_commit].
  assert (rtc (step r) b a) as Hba by (by eapply IsAncestor_true_reaches).
  assert (resolves r b) as Hb.
  { apply rtc_inv in Hba as [->|(p & [? _] & _)]; done. }
  destruct (ancestors_terminates r a Hwf Ha) as (fa & la & Hla).
  destruct (parents_of r a) as [|p ps] eqn:Hps.
  - exists fa. intros fuel Hle.
    assert (ancestors fuel r a = Some (la, None)) as H by (by apply Hla).
    rewrite (MergeBase_scan r fuel a b la H).
    destruct la as [|x la]; [done|]. exfalso.
    assert (x ∈ x :: la) as Hx by (by left).
    apply (ancestors_spec r _ _ _ H) in Hx.
    apply tc_inv_l in Hx as (q & [_ Hq] & _). rewrite Hps in Hq.
    by apply elem_of_nil in Hq.
  - destruct (IsAncestor_on_known_history r p b Hwf Hb) as (fb & res & Hres & Hret).
    exists (fa `max` fb). intros fuel Hle.
    assert (ancestors fuel r a = Some (la, None)) as H by (apply Hla; lia).
    rewrite (MergeBase_scan r fuel a b la H).
    destruct (ancestors_starts_with_parents r _ _ _ H) as [_ [rest ->]].
    rewrite Hps. simpl. rewrite (Hret fuel) by lia.
    assert (res = true) as ->; [|done].
    apply Hres. eapply rtc_r; [done|]. split; [done|]. rewrite Hps. by left.
Qed.

Lemma MergeBase_of_ancestor_is_its_first_parent_witness :
  IsAncestor 7 testRepo "D" "I" = Some (true, None) ∧
  ∃ fuel0, ∀ fuel, fuel0 ≤ fuel → MergeBase fuel testRepo "D" "I" = Some ("B", None).
Proof.
  split; [vm_compute; reflexivity|].
  destruct (MergeBase_of_ancestor_is_its_first_parent testRepo 7 "D" "I") as [Hret _].
  - exact testRepo_WellFormed.
  - vm_compute; reflexivity.
  - vm_compute; reflexivity.
  - exact Hret.
Defined.

(** X12. On a well-formed store [MergeBase(a, b)] returns without error
    for all [a] and [b] that resolve. Its result is reached from [a] by at
    least one parent edge and is [b] or reached from [b]; when no
    identifier is both, the result is the empty string. *)
Theorem MergeBase_finds_a_common_ancestor (r : mockRepoForTest) (a b : string) :
  WellFormed r → resolves r a → resolves r b →
  ∃ fuel0 result,
    (∀ fuel, fuel0 ≤ fuel → MergeBase fuel r a b = Some (result, None)) ∧
    ((tc (step r) a result ∧ rtc (step r) b result) ∨
     (result = "" ∧ ∀ x, tc (step r) a x → ¬ rtc (step r) b x)).
Proof.
  intros Hwf Ha Hb.
  destruct (ancestors_terminates r a Hwf Ha) as (fa & la & Hla).
  destruct (ancestors_terminates r b Hwf Hb) as (fb & lb & Hlb).
  set (fuel0 := fa `max` fb).
  assert (ancestors fuel0 r a = Some (la, None)) as Ha0 by (apply Hla; lia).
  assert (∀ fuel x, fuel0 ≤ fuel →
            ∃ res : bool, IsAncestor fuel r x b = Some (res, None) ∧
                          (res = true ↔ rtc (step r) b x)) as Htest.
  { intros fuel x Hle. exists (bool_decide (x = b ∨ x ∈ lb)). split.
    - apply IsAncestor_of_ancestors, Hlb. lia.
    - rewrite bool_decide_eq_true, rtc_tc, (ancestors_spec r _ _ _ (Hlb fb (le_n _)) x).
      split; (intros [?|?]; [by left | by right]). }
  destruct (range_first_decides (λ x, rtc (step r) b x)
              (λ x, IsAncestor fuel0 r x b) la) as [(x & Hx & Hin & Hbx)|[Hnone Hall]].
  { intros x _. by apply Htest. }
  - exists fuel0, x. split.
    + intros fuel Hle. rewrite (MergeBase_scan r fuel a b la) by (apply Hla; lia).
      rewrite (range_first_mono (λ y, IsAncestor fuel0 r y b) _ la (Some x)); [done| |exact Hx].
      intros y res _ Hy. by eapply IsAncestor_mono.
    + left. split; [|done]. by apply (ancestors_spec r _ _ _ Ha0).
  - exists fuel0, "". split.
    + intros fuel Hle. rewrite (MergeBase_scan r fuel a b la) by (apply Hla; lia).
      rewrite (range_first_mono (λ y, IsAncestor fuel0 r y b) _ la None); [done| |exact Hnone].
      intros y res _ Hy. by eapply IsAncestor_mono.
    + right. split; [done|]. intros x Hax. apply Hall.
      by apply (ancestors_spec r _ _ _ Ha0).
Qed.

Lemma MergeBase_finds_a_common_ancestor_witness :
  WellFormed testRepo ∧ resolves testRepo "G" ∧ resolves testRepo "C" ∧
  ∃ fuel0 result,
    (∀ fuel, fuel0 ≤ fuel → MergeBase fuel testRepo "G" "C" = Some (result, None)) ∧
    ((tc (step testRepo) "G" result ∧ rtc (step testRepo) "C" result) ∨
     (result = "" ∧ ∀ x, tc (step testRepo) "G" x → ¬ rtc (step testRepo) "C" x)).
Proof.
  split; [exact testRepo_WellFormed|].
  split; [vm_compute; reflexivity|]. split; [vm_compute; reflexivity|].
  apply (MergeBase_finds_a_common_ancestor testRepo "G" "C").
  - exact testRepo_WellFormed.
  - vm_compute; reflexivity.
  - vm_compute; reflexivity.
Defined.

(** X13. An error of [MergeBase(a, b)] comes from the history of [a]
    only: the result is then empty and the error names an identifier that
    does not resolve and is [a] or reached from [a]. *)
Theorem MergeBase_error_names_missing_commit
    (r : mockRepoForTest) (fuel : nat) (a b result : string) (err : error) :
  MergeBase fuel r a b = Some (result, Some err) →
  result = "" ∧ ∃ c, rtc (step r) a c ∧ ¬ resolves r c ∧ err = RefDoesNotExist c.
Proof.
  unfold MergeBase. intros H.
  destruct (ancestors fuel r a) as [[l [e|]]|] eqn:Hanc; [| |done].
  - simplify_eq. split; [done|].
    apply ancestors_loop_error in Hanc as [_ (q & c & Hq & Hqc & Hc & ->)].
    apply list_elem_of_singleton in Hq as ->. by exists c.
  - by destruct (range_first _ l) as [[?|]|].
Qed.

Lemma MergeBase_error_names_missing_commit_witness :
  MergeBase 1 testRepo "X" "A" = Some ("", Some (RefDoesNotExist "X")) ∧
  ∃ c, rtc (step testRepo) "X" c ∧ ¬ resolves testRepo c ∧
       RefDoesNotExist "X" = RefDoesNotExist c.
Proof.
  assert (MergeBase 1 testRepo "X" "A" = Some ("", Some (RefDoesNotExist "X"))) as H
    by (vm_compute; reflexivity).
  split; [exact H|].
  exact (proj2 (MergeBase_error_names_missing_commit testRepo 1 "X" "A" _ _ H)).
Defined.

Lemma range_first_all_rejected (test : string → option (bool * option error)) l :
  (∀ x, x ∈ l → ∃ res, test x = Some res ∧ res ≠ (true, None)) →
  range_first test l = Some None.
Proof.
  induction l as [|y l IH]; intros Htest; [done|].
  simpl. destruct (Htest y) as (res & -> & Hres); [by left|].
  destruct res as [[] [e|]]; try done.
  all: apply IH; intros x Hx; apply Htest; by right.
Qed.

(** X14. An unknown second argument is no error: when the enumeration of
    [a] returns and [b] does not resolve, [MergeBase(a, b)] returns the
    empty string and nil. *)
Theorem MergeBase_unknown_second_argument
    (r : mockRepoForTest) (fuel : nat) (a b : string) (l : list string) :
  ancestors fuel r a = Some (l, None) →
  ¬ resolves r b →
  MergeBase fuel r a b = Some ("", None).
Proof.
  intros H Hb. rewrite (MergeBase_scan r fuel a b l H).
  rewrite range_first_all_rejected; [done|].
  intros x Hx.
  assert (x ≠ b) as Hxb.
  { intros ->. by apply Hb, (ancestors_elements_resolve r fuel a l). }
  destruct fuel as [|fuel]; [done|].
  rewrite (IsAncestor_unknown_descendant r fuel x b Hb). rewrite decide_False by done.
  by eexists.
Qed.

Lemma MergeBase_unknown_second_argument_witness :
  ancestors 7 testRepo "J" = Some (["F"; "E"; "D"; "B"; "C"; "A"; "A"], None) ∧
  ¬ resolves testRepo "X" ∧
  MergeBase 7 testRepo "J" "X" = Some ("", None).
Proof.
  assert (ancestors 7 testRepo "J" = Some (["F"; "E"; "D"; "B"; "C"; "A"; "A"], None)) as H
    by (vm_compute; reflexivity).
  assert (¬ resolves testRepo "X") as HX by (vm_compute; discriminate).
  split; [exact H|]. split; [exact HX|].
  exact (MergeBase_unknown_second_argument testRepo 7 "J" "X" _ H HX).
Defined.

(** ** The accessors *)

Lemma getCommit_through_ref (r : mockRepoForTest) (ref c : string) :
  Refs r !! ref = Some c → Refs r !! c = None → is_Some (Commits r !! c) →
  getCommit r ref = getCommit r c.
Proof.
  intros Href Hc [commit Hcommit]. unfold getCommit, resolveLocalRef.
  by rewrite Href, Hc, Hcommit.
Qed.

(** X15. On a well-formed store, when [GetLastParent(ref)] returns a
    non-empty identifier without error, [IsAncestor] of that identifier and
    [ref] returns true. *)
Theorem GetLastParent_is_an_ancestor (r : mockRepoForTest) (ref p : string) :
  WellFormed r →
  GetLastParent r ref = (p, None) →
  p ≠ "" →
  ∃ fuel0, ∀ fuel, fuel0 ≤ fuel → IsAncestor fuel r p ref = Some (true, None).
Proof.
  intros Hwf Hlast Hp. unfold GetLastParent in Hlast.
  destruct (getCommit r ref) as [commit err] eqn:E.
  case_decide as Hlen; [|by simplify_eq]. simplify_eq.
  assert (resolves r ref) as Href by (unfold resolves; by rewrite E).
  destruct (Parents commit !! (length (Parents commit) - 1)) as [p|] eqn:Hp'; [|done].
  simpl in *. apply list_elem_of_lookup_2 in Hp'.
  destruct (ancestors_terminates r ref Hwf Href) as (fuel0 & l & Hl).
  exists fuel0. intros fuel Hle.
  rewrite (IsAncestor_of_ancestors r fuel p ref l (Hl fuel Hle)).
  rewrite bool_decide_eq_true_2; [done|]. right.
  destruct (ancestors_starts_with_parents r _ _ _ (Hl fuel Hle)) as [_ [rest ->]].
  apply elem_of_app. left. unfold parents_of. by rewrite E.
Qed.

Lemma GetLastParent_is_an_ancestor_witness :
  GetLastParent testRepo "H" = ("F", None) ∧
  ∃ fuel0, ∀ fuel, fuel0 ≤ fuel → IsAncestor fuel testRepo "F" "H" = Some (true, None).
Proof.
  split; [vm_compute; reflexivity|].
  apply (GetLastParent_is_an_ancestor testRepo "H" "F").
  - exact testRepo_WellFormed.
  - vm_compute; reflexivity.
  - discriminate.
Defined.

(** X16. A ref that points to an identifier missing from the commit
    store still verifies: [VerifyGitRef] and [GetCommitHash] succeed while
    [VerifyCommit] of the hash fails, and the accessors return the fields of
    an empty commit without error. *)
Theorem dangling_ref_reads_as_empty_commit (r : mockRepoForTest) (ref c : string) :
  Refs r !! ref = Some c →
  Commits r !! c = None →
  VerifyGitRef r ref = None ∧
  GetCommitHash r ref = (c, None) ∧
  VerifyCommit r c = Some (NotAKnownCommit c) ∧
  GetCommitMessage r ref = ("", None) ∧
  GetCommitTime r ref = ("", None) ∧
  GetLastParent r ref = ("", None) ∧
  ∀ fuel, ancestors (S fuel) r ref = Some ([], None).
Proof.
  intros Href Hc.
  assert (getCommit r ref = (zeroCommit, None)) as Hget.
  { unfold getCommit, resolveLocalRef, index_commit. by rewrite Href, Hc. }
  unfold VerifyGitRef, GetCommitHash, VerifyGitRef, VerifyCommit, GetCommitMessage,
    GetCommitTime, GetLastParent, index_str.
  rewrite Hget, Hc. unfold resolveLocalRef. rewrite Href. simpl.
  split_and!; try done.
  intros fuel. unfold ancestors. cbn [ancestors_loop ancestors_range].
  rewrite Hget. simpl. by destruct fuel.
Qed.

Lemma dangling_ref_reads_as_empty_commit_witness :
  let r := MockRepoForTest "h" (<["refs/heads/gone" := "Z"]> ∅) (Commits testRepo) ∅ in
  VerifyGitRef r "refs/heads/gone" = None ∧
  VerifyCommit r "Z" = Some (NotAKnownCommit "Z") ∧
  GetCommitMessage r "refs/heads/gone" = ("", None).
Proof.
  intros r.
  destruct (dangling_ref_reads_as_empty_commit r "refs/heads/gone" "Z")
    as (H1 & _ & H3 & H4 & _); [vm_compute; reflexivity..|].
  by split_and!.
Defined.

(** X17. A ref and the commit it points to are interchangeable for the
    accessors and for the first argument of the graph queries, when the
    commit is in the store and its identifier is not itself a ref name. *)
Theorem ref_stands_for_its_commit (r : mockRepoForTest) (ref c : string) :
  Refs r !! ref = Some c →
  Refs r !! c = None →
  is_Some (Commits r !! c) →
  GetCommitMessage r ref = GetCommitMessage r c ∧
  GetCommitTime r ref = GetCommitTime r c ∧
  GetLastParent r ref = GetLastParent r c ∧
  ResolveRefCommit r ref = ResolveRefCommit r c ∧
  (∀ fuel, ancestors fuel r ref = ancestors fuel r c) ∧
  (∀ fuel b, MergeBase fuel r ref b = MergeBase fuel r c b).
Proof.
  intros Href Hc Hcommit.
  pose proof (getCommit_through_ref r ref c Href Hc Hcommit) as Hget.
  assert (∀ fuel, ancestors fuel r ref = ancestors fuel r c) as Hanc.
  { intros [|fuel]; [done|]. unfold ancestors. cbn [ancestors_loop ancestors_range].
    by rewrite Hget. }
  unfold GetCommitMessage, GetCommitTime, GetLastParent. rewrite Hget.
  split_and!; try done.
  - destruct Hcommit as [commit Hcommit].
    unfold ResolveRefCommit, resolveLocalRef. by rewrite Href, Hc, Hcommit.
  - intros fuel b. unfold MergeBase. by rewrite Hanc.
Qed.

Lemma ref_stands_for_its_commit_witness :
  GetCommitMessage testRepo "refs/heads/master" = GetCommitMessage testRepo "J" ∧
  ∀ fuel b, MergeBase fuel testRepo "refs/heads/master" b = MergeBase fuel testRepo "J" b.
Proof.
  destruct (ref_stands_for_its_commit testRepo "refs/heads/master" "J")
    as (H1 & _ & _ & _ & _ & H6);
    [vm_compute; reflexivity | vm_compute; reflexivity | vm_compute; eauto |].
  by split.
Defined.

(** X18. When [GetCommitHash(ref)] returns a non-empty hash without
    error, [ref] is a key of the ref table and [ResolveRefCommit(ref)]
    returns the same hash. *)
Theorem GetCommitHash_agrees_with_ResolveRefCommit
    (r : mockRepoForTest) (ref c : string) :
  GetCommitHash r ref = (c, None) →
  c ≠ "" →
  Refs r !! ref = Some c ∧ ResolveRefCommit r ref = (c, None).
Proof.
  unfold GetCommitHash, VerifyGitRef, ResolveRefCommit, resolveLocalRef, index_str.
  destruct (Refs r !! ref) as [c'|]; simpl.
  - by intros [= ->].
  - destruct (Commits r !! ref); simpl; [by intros [= <-]|done].
Qed.

Lemma GetCommitHash_agrees_with_ResolveRefCommit_witness :
  GetCommitHash testRepo "refs/heads/ojarjur/mychange" = ("I", None) ∧
  ResolveRefCommit testRepo "refs/heads/ojarjur/mychange" = ("I", None).
Proof.
  split; [vm_compute; reflexivity|].
  apply (GetCommitHash_agrees_with_ResolveRefCommit testRepo
           "refs/heads/ojarjur/mychange" "I").
  - vm_compute; reflexivity.
  - discriminate.
Defined.

(** X19. Whatever [VerifyCommit] accepts, the ref-based entry points
    accept as well: [VerifyGitRef], [ResolveRefCommit], [GetCommitMessage],
    [GetCommitTime] and [GetLastParent] return no error for a known commit
    hash. *)
Theorem verified_commit_is_a_valid_ref (r : mockRepoForTest) (hash : string) :
  VerifyCommit r hash = None →
  VerifyGitRef r hash = None ∧
  snd (ResolveRefCommit r hash) = None ∧
  snd (GetCommitMessage r hash) = None ∧
  snd (GetCommitTime r hash) = None ∧
  snd (GetLastParent r hash) = None.
Proof.
  unfold VerifyCommit. destruct (Commits r !! hash) as [commit|] eqn:Hc; [intros _|done].
  assert (snd (resolveLocalRef r hash) = None) as Hres.
  { unfold resolveLocalRef. rewrite Hc. by destruct (Refs r !! hash). }
  unfold VerifyGitRef, ResolveRefCommit, GetCommitMessage, GetCommitTime, GetLastParent,
    getCommit.
  destruct (resolveLocalRef r hash) as [c err]. simpl in Hres. subst err.
  split_and!; try done. by case_decide.
Qed.

Lemma verified_commit_is_a_valid_ref_witness :
  VerifyCommit testRepo "E" = None ∧ VerifyGitRef testRepo "E" = None.
Proof.
  split; [vm_compute; reflexivity|].
  apply (verified_commit_is_a_valid_ref testRepo "E"). vm_compute; reflexivity.
Defined.

(** ** Splitting the notes of a revision *)

Lemma string_app_cons (x : ascii) (a b : string) :
  String x a +:+ b = String x (a +:+ b).
Proof. reflexivity. Qed.

Lemma string_app_assoc (a b c : string) : (a +:+ b) +:+ c = a +:+ b +:+ c.
Proof.
  induction a as [|x a IH]; [reflexivity|]. rewrite !string_app_cons. by f_equal.
Qed.

Lemma string_app_length (a b : string) :
  String.length (a +:+ b) = String.length a + String.length b.
Proof.
  induction a as [|x a IH]; [reflexivity|].
  rewrite string_app_cons. cbn [String.length]. by rewrite IH.
Qed.

Lemma split_at_first_shorter (sep s before after : string) :
  sep ≠ "" → split_at_first sep s = Some (before, after) →
  String.length after < String.length s.
Proof.
  intros Hsep H. apply split_at_first_Some in H as [-> _].
  rewrite !string_app_length. destruct sep; [done|]. simpl. lia.
Qed.

Lemma split_at_first_before_free (sep s before after : string) :
  sep ≠ "" → split_at_first sep s = Some (before, after) → free_of sep before.
Proof.
  intros Hsep H x y ->. apply split_at_first_Some in H as [Hs Hleft].
  rewrite !string_app_assoc in Hs. apply Hleft in Hs.
  rewrite !string_app_length in Hs. destruct sep; [done|]. simpl in Hs. lia.
Qed.

Lemma genSplit_fuel (sep : string) (n m : nat) (s : string) :
  sep ≠ "" → String.length s ≤ n → String.length s ≤ m →
  genSplit n s sep = genSplit m s sep.
Proof.
  intros Hsep. revert m s. induction n as [|n IH]; intros m s Hn Hm.
  - destruct s; [|simpl in Hn; lia]. destruct m; [done|].
    cbn [genSplit]. rewrite split_at_first_unfold. by destruct sep.
  - destruct m as [|m].
    + destruct s; [|simpl in Hm; lia].
      cbn [genSplit]. rewrite split_at_first_unfold. by destruct sep.
    + cbn [genSplit].
      destruct (split_at_first sep s) as [[before after]|] eqn:E; [|done].
      apply split_at_first_shorter in E; [|done].
      f_equal. apply IH; lia.
Qed.

Lemma strings_Split_unfold (s sep : string) :
  sep ≠ "" →
  strings_Split s sep =
    match split_at_first sep s with
    | None => [s]
    | Some (before, after) => before :: strings_Split after sep
    end.
Proof.
  intros Hsep. unfold strings_Split.
  rewrite (genSplit_fuel sep (String.length s) (S (String.length s)) s) by (done || lia).
  cbn [genSplit]. destruct (split_at_first sep s) as [[before after]|] eqn:E; [|done].
  apply split_at_first_shorter in E; [|done].
  f_equal. apply genSplit_fuel; [done | lia | lia].
Qed.

(** Induction on the length of the string that is split. *)
Lemma strings_Split_ind (sep : string) (P : string → Prop) :
  sep ≠ "" →
  (∀ s, split_at_first sep s = None → P s) →
  (∀ s before after, split_at_first sep s = Some (before, after) → P after → P s) →
  ∀ s, P s.
Proof.
  intros Hsep Hnone Hsome s.
  remember (String.length s) as n eqn:Hn.
  revert s Hn. induction (lt_wf n) as [n _ IH]. intros s ->.
  destruct (split_at_first sep s) as [[before after]|] eqn:E; [|by apply Hnone].
  eapply Hsome; [done|]. eapply IH; [|done]. by eapply split_at_first_shorter.
Qed.

Lemma strings_Split_not_nil (s sep : string) : sep ≠ "" → strings_Split s sep ≠ [].
Proof.
  intros Hsep. rewrite strings_Split_unfold by done.
  by destruct (split_at_first sep s) as [[? ?]|].
Qed.

Lemma strings_Split_concat (s sep : string) :
  sep ≠ "" → String.concat sep (strings_Split s sep) = s.
Proof.
  intros Hsep. revert s. refine (strings_Split_ind sep _ Hsep _ _).
  - intros s E. by rewrite strings_Split_unfold, E.
  - intros s before after E IH. rewrite strings_Split_unfold, E by done.
    pose proof (strings_Split_not_nil after sep Hsep) as Hne.
    destruct (strings_Split after sep) as [|x rest] eqn:Hrest; [done|].
    cbn [String.concat]. cbn [String.concat] in IH. rewrite IH.
    by apply split_at_first_Some in E as [-> _].
Qed.

Lemma strings_Split_free (s sep : string) :
  sep ≠ "" → Forall (free_of sep) (strings_Split s sep).
Proof.
  intros Hsep. revert s. refine (strings_Split_ind sep _ Hsep _ _).
  - intros s E. rewrite strings_Split_unfold, E by done.
    constructor; [|constructor]. unfold free_of. by apply split_at_first_None.
  - intros s before after E IH. rewrite strings_Split_unfold, E by done.
    constructor; [by eapply split_at_first_before_free | done].
Qed.

Lemma strings_Split_of_free (s sep : string) :
  sep ≠ "" → free_of sep s → strings_Split s sep = [s].
Proof.
  intros Hsep Hfree. rewrite strings_Split_unfold by done.
  destruct (split_at_first sep s) as [[before after]|] eqn:E; [|done].
  apply split_at_first_Some in E as [E _]. by apply Hfree in E.
Qed.

Lemma split_at_first_char (c x : ascii) (s : string) :
  split_at_first (String c "") (String x s) =
    if decide (c = x) then Some ("", s)
    else match split_at_first (String c "") s with
         | Some (before, after) => Some (String x before, after)
         | None => None
         end.
Proof. rewrite split_at_first_unfold. simpl. by case_decide. Qed.

Lemma split_at_first_char_app (c : ascii) (a b : string) :
  split_at_first (String c "") (a +:+ String c "" +:+ b) =
    match split_at_first (String c "") a with
    | Some (before, after) => Some (before, after +:+ String c "" +:+ b)
    | None => Some (a, b)
    end.
Proof.
  induction a as [|x a IH].
  - change ("" +:+ String c "" +:+ b) with (String c b).
    rewrite split_at_first_char, decide_True by done.
    by rewrite split_at_first_unfold.
  - rewrite string_app_cons, !split_at_first_char. case_decide; [done|].
    rewrite IH. by destruct (split_at_first (String c "") a) as [[? ?]|].
Qed.

Lemma strings_Split_char_app (c : ascii) (a b : string) :
  strings_Split (a +:+ String c "" +:+ b) (String c "") =
    strings_Split a (String c "") ++ strings_Split b (String c "").
Proof.
  revert a. refine (strings_Split_ind (String c "") _ _ _ _); [done|..].
  - intros a E.
    rewrite (strings_Split_unfold (a +:+ _)), split_at_first_char_app, E by done.
    by rewrite (strings_Split_unfold a), E.
  - intros a before after E IH.
    rewrite (strings_Split_unfold (a +:+ _)), split_at_first_char_app, E by done.
    by rewrite (strings_Split_unfold a), E, IH.
Qed.

(** X20. [GetNotes] never returns an empty list: the notes it returns,
    joined by line feeds, are the stored text, none of them holds a line
    feed, and a revision without notes yields one empty note. *)
Theorem GetNotes_splits_the_stored_text
    (h : heap) (r : mockRepoForTest) (notesRef revision : string) :
  let notesText := index_str (deref h (index_notes (Notes r) notesRef)) revision in
  GetNotes h r notesRef revision ≠ [] ∧
  String.concat LF (GetNotes h r notesRef revision) = notesText ∧
  Forall (free_of LF) (GetNotes h r notesRef revision) ∧
  (notesText = "" → GetNotes h r notesRef revision = [""]).
Proof.
  intros notesText. unfold GetNotes. fold notesText.
  split_and!.
  - by apply strings_Split_not_nil.
  - by apply strings_Split_concat.
  - by apply strings_Split_free.
  - by intros ->.
Qed.

(** ** Appending and reading notes *)

Lemma AppendNote_heap
    (r : mockRepoForTest) (ref revision note : string) (h : heap) (a : addr) :
  Notes r !! ref = Some (MapAt a) →
  AppendNote r ref revision note h =
    (Returns None,
     <[a := <[revision := index_str (deref h (MapAt a)) revision +:+ LF +:+ note]>
              (deref h (MapAt a))]> h).
Proof.
  intros Hn. unfold AppendNote, call_by_value, AppendNote_body, index_notes.
  by rewrite Hn.
Qed.

Lemma GetNotes_appended
    (r : mockRepoForTest) (ref revision note : string) (h : heap) (a : addr) :
  Notes r !! ref = Some (MapAt a) →
  GetNotes (snd (AppendNote r ref revision note h)) r ref revision =
    GetNotes h r ref revision ++ strings_Split note LF.
Proof.
  intros Hn. rewrite (AppendNote_heap r ref revision note h a Hn). simpl.
  unfold GetNotes, index_notes. rewrite Hn. simpl.
  rewrite lookup_insert_eq. simpl. unfold index_str at 1.
  rewrite lookup_insert_eq. simpl. apply strings_Split_char_app.
Qed.

(** X21. After [AppendNote(ref, revision, note)] on a notes ref that has
    a table, [GetNotes(ref, revision)] returns the notes it returned before
    followed by the lines of [note]; a note without line feed is the last
    entry. *)
Theorem GetNotes_after_AppendNote
    (r : mockRepoForTest) (ref revision note : string) (h : heap) (a : addr) :
  Notes r !! ref = Some (MapAt a) →
  ∃ h', AppendNote r ref revision note h = (Returns None, h') ∧
        GetNotes h' r ref revision = GetNotes h r ref revision ++ strings_Split note LF ∧
        (free_of LF note → last (GetNotes h' r ref revision) = Some note).
Proof.
  intros Hn. pose proof (GetNotes_appended r ref revision note h a Hn) as Hget.
  exists (snd (AppendNote r ref revision note h)).
  split; [by rewrite (AppendNote_heap r ref revision note h a Hn)|]. split; [done|].
  intros Hfree. rewrite Hget, strings_Split_of_free by done. apply last_snoc.
Qed.

Lemma GetNotes_after_AppendNote_witness :
  Notes testRepo !! TestCommentsRef = Some (MapAt 2%positive) ∧
  ∃ h', AppendNote testRepo TestCommentsRef "B" "lgtm" testHeap = (Returns None, h') ∧
        GetNotes h' testRepo TestCommentsRef "B" = [TestDiscussB; "lgtm"].
Proof.
  split; [vm_compute; reflexivity|].
  destruct (GetNotes_after_AppendNote testRepo TestCommentsRef "B" "lgtm" testHeap
              2%positive) as (h' & Happ & Hget & _); [vm_compute; reflexivity|].
  exists h'. split; [exact Happ|]. rewrite Hget. vm_compute. reflexivity.
Defined.

(** X22. The first note appended to a revision that has none is not the
    first entry that [GetNotes] returns afterwards: an empty note comes
    before it. *)
Theorem first_note_follows_an_empty_one
    (r : mockRepoForTest) (ref revision note : string) (h : heap) (a : addr) :
  Notes r !! ref = Some (MapAt a) →
  deref h (MapAt a) !! revision = None →
  ∃ h', AppendNote r ref revision note h = (Returns None, h') ∧
        GetNotes h' r ref revision = "" :: strings_Split note LF.
Proof.
  intros Hn Hrev. pose proof (GetNotes_appended r ref revision note h a Hn) as Hget.
  exists (snd (AppendNote r ref revision note h)).
  split; [by rewrite (AppendNote_heap r ref revision note h a Hn)|]. rewrite Hget.
  unfold GetNotes, index_notes, index_str. rewrite Hn. simpl. simpl in Hrev.
  by rewrite Hrev.
Qed.

Lemma first_note_follows_an_empty_one_witness :
  Notes testRepo !! TestCommentsRef = Some (MapAt 2%positive) ∧
  deref testHeap (MapAt 2%positive) !! "G" = None ∧
  ∃ h', AppendNote testRepo TestCommentsRef "G" "lgtm" testHeap = (Returns None, h') ∧
        GetNotes h' testRepo TestCommentsRef "G" = [""; "lgtm"].
Proof.
  split; [vm_compute; reflexivity|]. split; [vm_compute; reflexivity|].
  apply (first_note_follows_an_empty_one testRepo TestCommentsRef "G" "lgtm" testHeap
           2%positive); vm_compute; reflexivity.
Defined.

(** X23. [AppendNote(ref, revision, note)] changes what [GetNotes]
    returns for [revision] under every notes ref that shares the table of
    [ref], and for nothing else. *)
Theorem AppendNote_touches_one_entry
    (r : mockRepoForTest) (ref revision note : string) (h : heap) (a : addr) :
  Notes r !! ref = Some (MapAt a) →
  ∃ h', AppendNote r ref revision note h = (Returns None, h') ∧
    ∀ ref' revision',
      GetNotes h' r ref' revision' =
        if decide (index_notes (Notes r) ref' = MapAt a ∧ revision' = revision)
        then GetNotes h r ref revision ++ strings_Split note LF
        else GetNotes h r ref' revision'.
Proof.
  intros Hn. pose proof (GetNotes_appended r ref revision note h a Hn) as Hget.
  exists (snd (AppendNote r ref revision note h)).
  split; [by rewrite (AppendNote_heap r ref revision note h a Hn)|].
  intros ref' revision'. case_decide as Hsame.
  - destruct Hsame as [Hsame ->]. rewrite <- Hget.
    unfold GetNotes, index_notes in *. by rewrite Hn, Hsame.
  - rewrite (AppendNote_heap r ref revision note h a Hn). cbn [snd].
    unfold GetNotes. f_equal. unfold index_str. f_equal.
    destruct (index_notes (Notes r) ref') as [|a'] eqn:Href'; [done|]. simpl.
    destruct (decide (a' = a)) as [->|Ha].
    + rewrite lookup_insert_eq. simpl. rewrite lookup_insert_ne; [done|].
      intros ->. by apply Hsame.
    + by rewrite lookup_insert_ne.
Qed.

Lemma AppendNote_touches_one_entry_witness :
  ∃ h', AppendNote testRepo TestCommentsRef "B" "lgtm" testHeap = (Returns None, h') ∧
        GetNotes h' testRepo TestRequestsRef "B" = GetNotes testHeap testRepo TestRequestsRef "B".
Proof.
  destruct (AppendNote_touches_one_entry testRepo TestCommentsRef "B" "lgtm" testHeap
              2%positive) as (h' & Happ & Hget); [vm_compute; reflexivity|].
  exists h'. split; [exact Happ|]. rewrite Hget.
  rewrite decide_False; [done|]. vm_compute. by intros [? _].
Defined.

(** ** The noted revisions *)

Lemma elem_of_MapKeys (o : range_order) (X : gset string) (x : string) :
  x ∈ MapKeys o X ↔ x ∈ X.
Proof. by rewrite MapKeys_perm, elem_of_elements. Qed.

Lemma NoDup_MapKeys (o : range_order) (X : gset string) : NoDup (MapKeys o X).
Proof. rewrite MapKeys_perm. apply NoDup_elements. Qed.

(** X24. [ListNotedRevisions(notesRef)] lists, once each and in whatever
    order the runtime enumerates them, exactly the revisions that have
    notes under [notesRef] and are known commits; a noted revision that is
    no commit is left out. *)
Theorem ListNotedRevisions_lists_noted_commits
    (o : range_order) (h : heap) (r : mockRepoForTest) (notesRef : string) :
  (∀ x, x ∈ ListNotedRevisions o h r notesRef ↔
        is_Some (deref h (index_notes (Notes r) notesRef) !! x) ∧
        is_Some (Commits r !! x)) ∧
  NoDup (ListNotedRevisions o h r notesRef) ∧
  ∀ o', ListNotedRevisions o h r notesRef ≡ₚ ListNotedRevisions o' h r notesRef.
Proof.
  unfold ListNotedRevisions. split_and!.
  - intros x. rewrite list_elem_of_filter, elem_of_MapKeys, elem_of_dom. tauto.
  - apply NoDup_filter, NoDup_MapKeys.
  - intros o'. by rewrite !MapKeys_perm.
Qed.

(** X25. After [AppendNote(ref, revision, note)] on a notes ref that has
    a table, [ListNotedRevisions(ref)] holds [revision] exactly when it is a
    known commit, and holds any other revision exactly when it did
    before. *)
Theorem ListNotedRevisions_after_AppendNote
    (o : range_order) (r : mockRepoForTest) (ref revision note : string)
    (h : heap) (a : addr) :
  Notes r !! ref = Some (MapAt a) →
  ∃ h', AppendNote r ref revision note h = (Returns None, h') ∧
    (revision ∈ ListNotedRevisions o h' r ref ↔ is_Some (Commits r !! revision)) ∧
    ∀ x, x ≠ revision →
      (x ∈ ListNotedRevisions o h' r ref ↔ x ∈ ListNotedRevisions o h r ref).
Proof.
  intros Hn. rewrite (AppendNote_heap r ref revision note h a Hn).
  eexists. split; [done|].
  unfold ListNotedRevisions, index_notes. rewrite Hn. simpl.
  rewrite lookup_insert_eq. simpl. split.
  - rewrite list_elem_of_filter, elem_of_MapKeys, elem_of_dom, lookup_insert_eq.
    split; [by intros [? _] | by split].
  - intros x Hx.
    rewrite !list_elem_of_filter, !elem_of_MapKeys, !elem_of_dom.
    by rewrite lookup_insert_ne.
Qed.

Lemma ListNotedRevisions_after_AppendNote_witness :
  ∃ h', AppendNote testRepo TestCommentsRef "G" "lgtm" testHeap = (Returns None, h') ∧
        "G" ∈ ListNotedRevisions ascending_order h' testRepo TestCommentsRef.
Proof.
  destruct (ListNotedRevisions_after_AppendNote ascending_order testRepo TestCommentsRef
              "G" "lgtm" testHeap 2%positive) as (h' & Happ & HG & _);
    [vm_compute; reflexivity|].
  exists h'. split; [exact Happ|]. apply HG. vm_compute. eauto.
Defined.

(** ** The format of the hash *)

Lemma big_endian_length (width : nat) (x : Z) : length (big_endian width x) = width.
Proof. unfold big_endian. by rewrite length_fmap, length_reverse, length_seq. Qed.

Lemma sha1_Sum_length (data : list Z) : length (sha1_Sum data) = 20.
Proof.
  unfold sha1_Sum.
  destruct (fold_left sha1_block _ sha1_init) as [[[[h0 h1] h2] h3] h4].
  by rewrite !length_app, !big_endian_length.
Qed.

Lemma hexdigit_is_hex (n : N) :
  hexdigit n ∈ list_ascii_of_string "0123456789abcdef".
Proof.
  unfold hexdigit. generalize (N.to_nat n). intros k.
  do 16 (destruct k as [|k]; [vm_compute; set_solver|]).
  vm_compute. set_solver.
Qed.

Lemma hex_of_bytes_format (bs : list Z) :
  String.length (hex_of_bytes bs) = 2 * length bs ∧
  Forall (λ c, c ∈ list_ascii_of_string "0123456789abcdef")
         (list_ascii_of_string (hex_of_bytes bs)).
Proof.
  unfold hex_of_bytes. rewrite list_ascii_of_string_of_list_ascii.
  induction bs as [|b bs [IHlen IH]]; [by split|].
  cbn [mbind list_bind app string_of_list_ascii String.length]. split.
  - rewrite IHlen. cbn [length]. lia.
  - do 2 (constructor; [apply hexdigit_is_hex|]). exact IH.
Qed.

(** X26. [GetRepoStateHash] never fails, and the hash it returns is a
    string of forty characters, each a digit or a letter from a to f. *)
Theorem GetRepoStateHash_is_forty_hex_digits
    (o : range_order) (h : heap) (r : mockRepoForTest) :
  snd (GetRepoStateHash o h r) = None ∧
  String.length (fst (GetRepoStateHash o h r)) = 40 ∧
  Forall (λ c, c ∈ list_ascii_of_string "0123456789abcdef")
         (list_ascii_of_string (fst (GetRepoStateHash o h r))).
Proof.
  unfold GetRepoStateHash, json_Marshal. cbn [fst snd].
  destruct (hex_of_bytes_format (sha1_Sum (bytes_of_string (encodeRepo o h r))))
    as [Hlen Hhex].
  rewrite sha1_Sum_length in Hlen. by split_and!.
Qed.

(** ** Two more laws *)

(** X27. Appending two notes one after the other leaves the repository
    in the state that one append of the two notes joined by a line feed
    leaves it in. *)
Theorem AppendNote_twice
    (r : mockRepoForTest) (ref revision note1 note2 : string) (h : heap) (a : addr) :
  Notes r !! ref = Some (MapAt a) →
  ∃ h1 h2,
    AppendNote r ref revision note1 h = (Returns None, h1) ∧
    AppendNote r ref revision note2 h1 = (Returns None, h2) ∧
    AppendNote r ref revision (note1 +:+ LF +:+ note2) h = (Returns None, h2).
Proof.
  intros Hn.
  exists (snd (AppendNote r ref revision note1 h)),
         (snd (AppendNote r ref revision (note1 +:+ LF +:+ note2) h)).
  rewrite !(AppendNote_heap r ref revision _ h a Hn). cbn [snd].
  split; [done|]. split; [|done].
  rewrite (AppendNote_heap r ref revision _ _ a Hn). f_equal.
  cbn [deref]. rewrite lookup_insert_eq. cbn [from_option]. unfold id.
  unfold index_str at 1. rewrite lookup_insert_eq. cbn [from_option]. unfold id.
  rewrite !insert_insert_eq. by rewrite !string_app_assoc.
Qed.

Lemma AppendNote_twice_witness :
  ∃ h1 h2,
    AppendNote testRepo TestCommentsRef "B" "one" testHeap = (Returns None, h1) ∧
    AppendNote testRepo TestCommentsRef "B" "two" h1 = (Returns None, h2) ∧
    AppendNote testRepo TestCommentsRef "B" ("one" +:+ LF +:+ "two") testHeap =
      (Returns None, h2).
Proof.
  apply (AppendNote_twice testRepo TestCommentsRef "B" "one" "two" testHeap 2%positive).
  vm_compute; reflexivity.
Defined.

(** X28. On a well-formed store the ancestry test is antisymmetric: when
    [IsAncestor(a, b)] and [IsAncestor(b, a)] both return true, [a] and [b]
    are the same identifier. *)
Theorem IsAncestor_antisymmetric
    (r : mockRepoForTest) (fuel1 fuel2 : nat) (a b : string) :
  WellFormed r →
  IsAncestor fuel1 r a b = Some (true, None) →
  IsAncestor fuel2 r b a = Some (true, None) →
  a = b.
Proof.
  intros Hwf Hab Hba.
  apply IsAncestor_true_reaches, rtc_tc in Hab as [->|Hab]; [done|].
  apply IsAncestor_true_reaches, rtc_tc in Hba as [->|Hba]; [done|].
  destruct (WellFormed_no_cycle r a Hwf). by etrans.
Qed.

Lemma IsAncestor_antisymmetric_witness :
  IsAncestor 1 testRepo "F" "F" = Some (true, None) ∧ "F" = "F".
Proof.
  split; [vm_compute; reflexivity|].
  apply (IsAncestor_antisymmetric testRepo 1 1 "F" "F").
  - exact testRepo_WellFormed.
  - vm_compute; reflexivity.
  - vm_compute; reflexivity.
Defined.
